(** * AsyncHttpMixin: quota guard, quota tracker, batch executor, bridge

    A shallow embedding of [src/async_mixin/mixin.py].  The host object and
    the environment it talks to (HTTP transports, event loops, the error
    stream) form an explicit state; every method is a computation in a
    state-and-exception monad in which, as in Python, the mutations made
    before an exception is raised stay in place. *)

From stdpp Require Import gmap strings list fin_maps.

#[local] Set Warnings "-clear-no-such-hyp".

Open Scope string_scope.
Open Scope Z_scope.

(** ** Values *)

(** Quota counters and header values: [None], an [int] or a [str]. *)
Inductive scalar :=
  | SNone
  | SInt (z : Z)
  | SStr (s : string).

(** Decoded JSON documents, payloads and call arguments. *)
Unset Elimination Schemes.
Inductive pyval :=
  | PNone
  | PInt (z : Z)
  | PStr (s : string)
  | PList (l : list pyval)
  | PDict (kv : list (string * pyval))
  | PSet (l : list pyval).
Set Elimination Schemes.

(** What [json.dumps] can encode: everything but a set, at any depth. *)
Fixpoint serializable (v : pyval) : bool :=
  match v with
  | PNone | PInt _ | PStr _ => true
  | PList l => forallb serializable l
  | PDict kv => forallb (λ p, serializable (snd p)) kv
  | PSet _ => false
  end.

(** The exceptions the module raises or lets through.  [SystemExit] and
    [KeyboardInterrupt] derive from [BaseException] only. *)
Inductive exn :=
  | ValueError (msg : string)
  | TypeError (msg : string)
  | AttributeError (attr : string)
  | RuntimeError (msg : string)
  | HTTPError (status : Z)
  | JSONDecodeError
  | TransportError (name : string)
  | SystemExit (status : Z)
  | KeyboardInterrupt.

(** [isinstance(e, Exception)] *)
Definition is_Exception (e : exn) : bool :=
  match e with
  | SystemExit _ | KeyboardInterrupt => false
  | _ => true
  end.

Inductive outcome (A : Type) :=
  | Return (a : A)
  | Raise (e : exn).
Arguments Return {A} a.
Arguments Raise {A} e.

(** Python truth value of a scalar. *)
Definition truthy (v : scalar) : bool :=
  match v with
  | SNone => false
  | SInt z => negb (z =? 0)
  | SStr s => negb (String.eqb s "")
  end.

(** [v > n] for an [int] literal [n]. *)
Definition py_gt (v : scalar) (n : Z) : outcome bool :=
  match v with
  | SInt z => Return (n <? z)
  | SStr _ => Raise (TypeError "'>' not supported between instances of 'str' and 'int'")
  | SNone => Raise (TypeError "'>' not supported between instances of 'NoneType' and 'int'")
  end.

(** [a - b] *)
Definition py_sub (a b : scalar) : outcome scalar :=
  match a, b with
  | SInt x, SInt y => Return (SInt (x - y))
  | _, _ => Raise (TypeError "unsupported operand type(s) for -")
  end.

(** ** The transport boundary *)

Inductive client := Requests | Aiohttp.
Inductive verb := GET | POST.

(** What is handed to the HTTP library as the address: a string, or (after
    the replication of [process_posts]) possibly a list of strings. *)
Inductive target :=
  | TStr (s : string)
  | TList (l : list string).

Record call := {
  via : client;
  method_ : verb;
  address : target;
  sent_headers : gmap string string;
  sent_body : option pyval
}.

(** A received response; [body] is the decoded JSON document, or [None]
    when the bytes received do not decode. *)
Record Response := {
  status : Z;
  reason : string;
  resp_headers : gmap string scalar;
  body : option pyval
}.

(** A transport call either yields a response or fails (time-out, refused
    connection, ...) with an error named by the library. *)
Inductive reply :=
  | Resp (r : Response)
  | Fail (name : string).

(** ** The host object *)

Record Session := {
  sess_headers : gmap string string;
  closed : bool
}.

(** Instance attributes; [None] stands for an attribute that has never been
    assigned (or has been deleted), so [hasattr] is [is_Some]. *)
Record Host := {
  headers : option (gmap string string);
  _session : option Session;
  throttler : option (Z * Z);
  conn : option nat;
  call_count_key : option string;
  call_count_limit_key : option string;
  call_limit_remaining_key : option string;
  call_counts : option scalar;
  call_count_limit : option scalar;
  remaining_calls : option scalar
}.

(** The environment: every transport call issued so far, the event loops
    (by identity) that are open, and the tracebacks printed. *)
Record World := {
  log : list call;
  open_loops : gset nat;
  next_loop : nat;
  reported : list exn
}.

Record Sys := {
  host : Host;
  world : World
}.

Definition with_session_attr (v : option Session) (h : Host) : Host :=
  {| headers := headers h; _session := v; throttler := throttler h;
     conn := conn h; call_count_key := call_count_key h;
     call_count_limit_key := call_count_limit_key h;
     call_limit_remaining_key := call_limit_remaining_key h;
     call_counts := call_counts h; call_count_limit := call_count_limit h;
     remaining_calls := remaining_calls h |}.

Definition with_throttler (v : option (Z * Z)) (h : Host) : Host :=
  {| headers := headers h; _session := _session h; throttler := v;
     conn := conn h; call_count_key := call_count_key h;
     call_count_limit_key := call_count_limit_key h;
     call_limit_remaining_key := call_limit_remaining_key h;
     call_counts := call_counts h; call_count_limit := call_count_limit h;
     remaining_calls := remaining_calls h |}.

Definition with_conn (v : option nat) (h : Host) : Host :=
  {| headers := headers h; _session := _session h; throttler := throttler h;
     conn := v; call_count_key := call_count_key h;
     call_count_limit_key := call_count_limit_key h;
     call_limit_remaining_key := call_limit_remaining_key h;
     call_counts := call_counts h; call_count_limit := call_count_limit h;
     remaining_calls := remaining_calls h |}.

Definition with_call_counts (v : option scalar) (h : Host) : Host :=
  {| headers := headers h; _session := _session h; throttler := throttler h;
     conn := conn h; call_count_key := call_count_key h;
     call_count_limit_key := call_count_limit_key h;
     call_limit_remaining_key := call_limit_remaining_key h;
     call_counts := v; call_count_limit := call_count_limit h;
     remaining_calls := remaining_calls h |}.

Definition with_call_count_limit (v : option scalar) (h : Host) : Host :=
  {| headers := headers h; _session := _session h; throttler := throttler h;
     conn := conn h; call_count_key := call_count_key h;
     call_count_limit_key := call_count_limit_key h;
     call_limit_remaining_key := call_limit_remaining_key h;
     call_counts := call_counts h; call_count_limit := v;
     remaining_calls := remaining_calls h |}.

Definition with_remaining_calls (v : option scalar) (h : Host) : Host :=
  {| headers := headers h; _session := _session h; throttler := throttler h;
     conn := conn h; call_count_key := call_count_key h;
     call_count_limit_key := call_count_limit_key h;
     call_limit_remaining_key := call_limit_remaining_key h;
     call_counts := call_counts h; call_count_limit := call_count_limit h;
     remaining_calls := v |}.

Definition on_host (f : Host → Host) (s : Sys) : Sys :=
  {| host := f (host s); world := world s |}.

Definition on_world (f : World → World) (s : Sys) : Sys :=
  {| host := host s; world := f (world s) |}.

(** ** Computations *)

Definition M (A : Type) : Type := Sys → outcome A * Sys.

Definition ret {A} (a : A) : M A := λ s, (Return a, s).
Definition raise {A} (e : exn) : M A := λ s, (Raise e, s).

Definition bind {A B} (m : M A) (k : A → M B) : M B :=
  λ s, match m s with
       | (Return a, s') => k a s'
       | (Raise e, s') => (Raise e, s')
       end.

Notation "x <- m ;; k" := (bind m (λ x, k))
  (at level 100, m at next level, right associativity).
Notation "m ;;; k" := (bind m (λ _, k))
  (at level 100, right associativity).

Definition lift {A} (o : outcome A) : M A := λ s, (o, s).
Definition get_self : M Host := λ s, (Return (host s), s).
Definition modify_self (f : Host → Host) : M unit := λ s, (Return tt, on_host f s).
Definition modify_world (f : World → World) : M unit :=
  λ s, (Return tt, on_world f s).

(** [self.<name>] for an attribute that may be missing. *)
Definition getattr {A} (name : string) (proj : Host → option A) : M A :=
  self <- get_self ;;
  match proj self with
  | Some v => ret v
  | None => raise (AttributeError name)
  end.

(** [try: m except <classes accepted by catches>: handler] *)
Definition try_except {A} (m : M A) (catches : exn → bool) (handler : exn → M A) : M A :=
  λ s, match m s with
       | (Raise e, s') => if catches e then handler e s' else (Raise e, s')
       | r => r
       end.

(** ** call_limiter *)

Definition call_limiter {A} (func : M A) : M A :=
  rc <- getattr "remaining_calls" remaining_calls ;;
  match rc with
  | SNone => func
  | _ =>
      positive <- lift (py_gt rc 0) ;;
      if (positive : bool) then func
      else raise (ValueError "No remaining calls for API")
  end.

Section Mixin.

(** The HTTP transport is a black box: it decides the reply to each call. *)
Variable transport : call → reply.

(** ** session, reset *)

Definition session : M Session :=
  self <- get_self ;;
  match _session self with
  | Some ss => ret ss
  | None =>
      hd <- getattr "headers" headers ;;
      let ss := {| sess_headers := hd; closed := false |} in
      modify_self (with_session_attr (Some ss)) ;;;
      ret ss
  end.

Definition reset : M unit :=
  self <- get_self ;;
  match _session self with
  | Some _ => modify_self (with_session_attr None)
  | None => ret tt
  end.

(** ** check_call_limit *)

(** [resp.headers.get(key, default)], header names compared as written *)
Definition headers_get (hs : gmap string scalar) (key : string) (default : scalar) : scalar :=
  match hs !! key with
  | Some v => v
  | None => default
  end.

Definition check_call_limit (resp : Response) : M unit :=
  self <- get_self ;;
  match call_count_key self, call_count_limit_key self with
  | Some ck, Some lk =>
      modify_self (with_call_counts (Some (headers_get (resp_headers resp) ck (SInt 0)))) ;;;
      modify_self (with_call_count_limit (Some (headers_get (resp_headers resp) lk (SInt 0))))
  | _, _ => ret tt
  end ;;;
  match call_limit_remaining_key self with
  | Some rk =>
      modify_self (with_remaining_calls (Some (headers_get (resp_headers resp) rk (SInt 1))))
  | None =>
      counts <- getattr "call_counts" call_counts ;;
      both <- (if truthy counts
               then limit <- getattr "call_count_limit" call_count_limit ;;
                    ret (truthy limit)
               else ret false) ;;
      if (both : bool) then
        limit <- getattr "call_count_limit" call_count_limit ;;
        counts <- getattr "call_counts" call_counts ;;
        diff <- lift (py_sub limit counts) ;;
        modify_self (with_remaining_calls (Some diff))
      else ret tt
  end.

(** ** set_rate_limit, _async_conn *)

Definition set_rate_limit (n p : Z) : M unit :=
  modify_self (with_throttler (Some (n, p))).

Definition _async_conn (loop : nat) : M unit :=
  modify_self (with_conn (Some loop)).

(** ** Transport calls *)

Definition record_call (c : call) : M unit :=
  modify_world (λ w, {| log := log w ++ [c]; open_loops := open_loops w;
                        next_loop := next_loop w; reported := reported w |}).

(** [requests.get] / [requests.post] *)
Definition requests_call (v : verb) (url : string) (hs : gmap string string)
    (data : option pyval) : M Response :=
  let c := {| via := Requests; method_ := v; address := TStr url;
              sent_headers := hs; sent_body := data |} in
  record_call c ;;;
  match transport c with
  | Resp r => ret r
  | Fail name => raise (TransportError name)
  end.

(** [resp.raise_for_status()] *)
Definition raise_for_status (resp : Response) : M unit :=
  if (400 <=? status resp) && (status resp <? 600)
  then raise (HTTPError (status resp))
  else ret tt.

(** [resp.json()] *)
Definition json (resp : Response) : M pyval :=
  match body resp with
  | Some doc => ret doc
  | None => raise JSONDecodeError
  end.

(** [self.session.get(url)] / [self.session.post(url, json=payload)]: a
    closed session refuses to send. *)
Definition session_call (v : verb) (url : target) (payload : option pyval) : M Response :=
  ss <- session ;;
  if closed ss then raise (RuntimeError "Session is closed")
  else
    let c := {| via := Aiohttp; method_ := v; address := url;
                sent_headers := sess_headers ss; sent_body := payload |} in
    record_call c ;;;
    match transport c with
    | Resp r => ret r
    | Fail name => raise (TransportError name)
    end.

Definition is_HTTPError (e : exn) : bool :=
  match e with HTTPError _ => true | _ => false end.

(** ** get, post *)

(** The decorated function and, below it, the name the class binds:
    [get = call_limiter(get)]. *)
Definition get_undecorated (url : string) (hs : gmap string string) : M pyval :=
  resp <- try_except
            (resp <- requests_call GET url hs None ;;
             raise_for_status resp ;;;
             ret resp)
            is_HTTPError
            (λ err, match err with
                    | HTTPError st => raise (SystemExit st)
                    | e => raise e
                    end) ;;
  check_call_limit resp ;;;
  json resp.

Definition get (url : string) (hs : gmap string string) : M pyval :=
  call_limiter (get_undecorated url hs).

(** [json.dumps(data)]: the encoded text itself is opaque, its failure on a
    value that cannot be encoded is not. *)
Definition json_dumps (data : pyval) : M pyval :=
  if serializable data then ret data
  else raise (TypeError "Object of type set is not JSON serializable").

(** The arguments of [requests.post] are evaluated in the order written:
    [json.dumps(data)], then [self.headers]. *)
Definition post_undecorated (url : string) (data : pyval) : M pyval :=
  encoded <- json_dumps data ;;
  hd <- getattr "headers" headers ;;
  resp <- requests_call POST url hd (Some encoded) ;;
  try_except (raise_for_status resp) is_HTTPError
    (λ err, match err with
            | HTTPError st =>
                json resp ;;;            (* print(resp.json()) *)
                raise (SystemExit st)
            | e => raise e
            end) ;;;
  check_call_limit resp ;;;
  json resp.

Definition post (url : string) (data : pyval) : M pyval :=
  call_limiter (post_undecorated url data).

(** ** async_get, async_post *)

(** The payload a request degrades to when its response is not a 200. *)
Definition error_payload (why : string) : pyval :=
  PDict [("data", PDict []);
         ("message", PSet [PStr ("Error: " ++ why)]);
         ("meta", PDict [])].

(** The body of the coroutine.  [async with self.throttler] needs the
    attribute and otherwise only delays; the segment between the arrival
    of the response and the read of its body runs without interruption. *)
Definition async_get_body (url : string) : M pyval :=
  getattr "throttler" throttler ;;;
  response <- session_call GET (TStr url) None ;;
  if status response =? 200 then
    check_call_limit response ;;;
    json response
  else ret (error_payload (reason response)).

Definition async_post_body (url : target) (payload : pyval) : M pyval :=
  getattr "throttler" throttler ;;;
  response <- session_call POST url (Some payload) ;;
  if status response =? 200 then
    check_call_limit response ;;;
    json response
  else ret (error_payload (reason response)).

(** Calling a decorated [async def] runs the guard at once and hands back
    the coroutine, which has not started. *)
Definition async_get (url : string) : M (M pyval) :=
  call_limiter (ret (async_get_body url)).

Definition async_post (url : target) (payload : pyval) : M (M pyval) :=
  call_limiter (ret (async_post_body url payload)).

(** ** asyncio.gather *)

(** The tasks run to completion one after the other in the order in which
    the event loop completes them; [done] collects the results by index.
    The first exception ends the wait, and what the tasks still pending
    would do afterwards is not followed. *)
Fixpoint run_tasks (tasks : list (M pyval)) (order : list nat)
    (done : gmap nat pyval) : M (gmap nat pyval) :=
  match order with
  | [] => ret done
  | i :: rest =>
      match tasks !! i, done !! i with
      | Some t, None =>
          r <- t ;;
          run_tasks tasks rest (<[i := r]> done)
      | _, _ => run_tasks tasks rest done
      end
  end.

(** [order] is the completion order chosen by the event loop; a task it
    does not name completes after those it names.  The results come back
    in the order of the tasks. *)
Definition gather (order : list nat) (tasks : list (M pyval)) : M (list pyval) :=
  done <- run_tasks tasks (order ++ seq 0 (length tasks)) ∅ ;;
  ret (omap (λ i, done !! i) (seq 0 (length tasks))).

(** ** process_gets, process_posts *)

(** [for x in xs: tasks.append(f(x))] *)
Fixpoint spawn_all {D} (f : D → M (M pyval)) (xs : list D) : M (list (M pyval)) :=
  match xs with
  | [] => ret []
  | x :: rest =>
      t <- f x ;;
      ts <- spawn_all f rest ;;
      ret (t :: ts)
  end.

Definition close_session (s : Sys) : Sys :=
  on_host (λ h, match _session h with
                | Some ss => with_session_attr
                               (Some {| sess_headers := sess_headers ss; closed := true |}) h
                | None => h
                end) s.

(** [async with self.session: body] closes the session on every exit. *)
Definition with_session {A} (body : M A) : M A :=
  session ;;;
  (λ s, let (r, s') := body s in (r, close_session s')).

Definition process_gets (order : list nat) (urls : list string) : M (list pyval) :=
  with_session (
    tasks <- spawn_all async_get urls ;;
    gather order tasks).

(** The [urls] argument of [process_posts]: a [str] or a list of them. *)
Inductive urls_arg :=
  | UStr (s : string)
  | UList (l : list string).

(** Lines 164-165: the value of [urls] when the loop starts. *)
Definition replicate_urls (urls : urls_arg) (payloads : list pyval) : list target :=
  match urls with
  | UStr s => replicate (length payloads) (TStr s)
  | UList l =>
      if (length l =? 1)%nat then replicate (length payloads) (TList l)
      else TStr <$> l
  end.

Definition process_posts (order : list nat) (urls : urls_arg) (payloads : list pyval)
    : M (list pyval) :=
  let urls := replicate_urls urls payloads in
  with_session (
    tasks <- spawn_all (λ d, async_post d.1 d.2) (zip urls payloads) ;;
    gather order tasks).

(** ** pipeline *)

Definition new_event_loop : M nat :=
  λ s, let l := next_loop (world s) in
       (Return l,
        on_world (λ w, {| log := log w; open_loops := {[l]} ∪ open_loops w;
                          next_loop := S l; reported := reported w |}) s).

Definition loop_close (l : nat) : M unit :=
  modify_world (λ w, {| log := log w; open_loops := open_loops w ∖ {[l]};
                        next_loop := next_loop w; reported := reported w |}).

Definition run_until_complete (l : nat) (coro : M pyval) : M pyval :=
  λ s, if decide (l ∈ open_loops (world s)) then coro s
       else (Raise (RuntimeError "Event loop is closed"), s).

(** [traceback.print_exception] of the exception being handled *)
Definition print_exception (e : exn) : M unit :=
  modify_world (λ w, {| log := log w; open_loops := open_loops w;
                        next_loop := next_loop w; reported := reported w ++ [e] |}).

(** A callable handed to [pipeline]: called with positional and keyword
    arguments, it hands back a coroutine. *)
Definition pymethod : Type := list pyval → list (string * pyval) → M (M pyval).

(** Lines 196-204: the call of [method] and the run of what it returns. *)
Definition run_method (method : pymethod) (args : list pyval)
    (kwargs : list (string * pyval)) (unpack : bool) (loop : nat) : M pyval :=
  if negb (length args =? 0)%nat then
    if unpack then
      coro <- method args [] ;;
      run_until_complete loop coro
    else
      coro <- method [PList args] [] ;;
      run_until_complete loop coro
  else if negb (length kwargs =? 0)%nat then
    coro <- method [] kwargs ;;
    run_until_complete loop coro
  else
    coro <- method [] [] ;;
    run_until_complete loop coro.

Definition pipeline (method : pymethod) (args : option (list pyval))
    (kwargs : option (list (string * pyval))) (unpack : bool) : M pyval :=
  let args := default [] args in
  let kwargs := default [] kwargs in
  loop <- new_event_loop ;;
  _async_conn loop ;;;
  res <- try_except (run_method method args kwargs unpack loop)
           is_Exception
           (λ e, print_exception e ;;; ret PNone) ;;
  loop_close loop ;;;
  reset ;;;
  ret res.

(** ** Vocabulary of the statements *)

(** The state in which the wrapped method starts: a new loop is open and
    the connector is bound to it. *)
Definition bridge_entry (s : Sys) : Sys :=
  snd (_async_conn (next_loop (world s)) (snd (new_event_loop s))).

(** The state after [loop.close()] and [self.reset()]. *)
Definition teardown (l : nat) (s : Sys) : Sys :=
  snd (reset (snd (loop_close l s))).

(** What the wrapped run of a [pipeline] call does, seen from its entry. *)
Definition wrapped_run (method : pymethod) (args : option (list pyval))
    (kwargs : option (list (string * pyval))) (unpack : bool) (s : Sys)
    : outcome pyval * Sys :=
  run_method method (default [] args) (default [] kwargs) unpack
    (next_loop (world s)) (bridge_entry s).

(** The common shape of the two coroutine bodies. *)
Definition exchange (v : verb) (url : target) (payload : option pyval) : M pyval :=
  getattr "throttler" throttler ;;;
  response <- session_call v url payload ;;
  if status response =? 200 then
    check_call_limit response ;;;
    json response
  else ret (error_payload (reason response)).

(** The common shape of [process_gets] and [process_posts]: one decorated
    coroutine function applied to every descriptor, then the join. *)
Definition batch {D} (body : D → M pyval) (order : list nat) (descs : list D)
    : M (list pyval) :=
  with_session (
    tasks <- spawn_all (λ d, call_limiter (ret (body d))) descs ;;
    gather order tasks).

(** The state in which a batch creates its tasks: the session exists. *)
Definition dispatch (s : Sys) : Sys := snd (session s).

(** The call a request for [url] puts on the wire through session [ss]. *)
Definition wire (ss : Session) (v : verb) (url : target) (payload : option pyval) : call :=
  {| via := Aiohttp; method_ := v; address := url;
     sent_headers := sess_headers ss; sent_body := payload |}.

(** The error of an exhausted quota. *)
Definition no_calls_left : exn := ValueError "No remaining calls for API".

(** The host after the first [if] of [check_call_limit]. *)
Definition store_counters (resp : Response) (h : Host) : Host :=
  match call_count_key h, call_count_limit_key h with
  | Some ck, Some lk =>
      with_call_count_limit (Some (headers_get (resp_headers resp) lk (SInt 0)))
        (with_call_counts (Some (headers_get (resp_headers resp) ck (SInt 0))) h)
  | _, _ => h
  end.

Definition put_host (h : Host) (s : Sys) : Sys := {| host := h; world := world s |}.

End Mixin.

(** ** Example environments, used to run the model on concrete inputs *)

Definition ok_response (doc : pyval) : Response :=
  {| status := 200; reason := "OK"; resp_headers := ∅; body := Some doc |}.

Definition bare_world : World :=
  {| log := []; open_loops := ∅; next_loop := 0%nat; reported := [] |}.

(** A host as a subclass leaves it when it sets [headers] only. *)
Definition bare_host : Host :=
  {| headers := Some ∅; _session := None; throttler := None; conn := None;
     call_count_key := None; call_count_limit_key := None;
     call_limit_remaining_key := None; call_counts := None;
     call_count_limit := None; remaining_calls := None |}.

(** A host that initialises its counters (quota unknown, nothing counted
    yet) and has its rate limit set. *)
Definition ready_host : Host :=
  {| headers := Some ∅; _session := None; throttler := Some (5, 60);
     conn := None; call_count_key := None; call_count_limit_key := None;
     call_limit_remaining_key := None; call_counts := Some (SInt 0);
     call_count_limit := Some (SInt 0); remaining_calls := Some SNone |}.

Definition sys_of (h : Host) : Sys := {| host := h; world := bare_world |}.

(** Every address answers 200 with the document [{"ok": 1}]. *)
Definition always_ok (c : call) : reply :=
  Resp (ok_response (PDict [("ok", PInt 1)])).

(** ["/B"] answers 503; every other address answers 200. *)
Definition b_unavailable (c : call) : reply :=
  match address c with
  | TStr "/B" =>
      Resp {| status := 503; reason := "Service Unavailable";
              resp_headers := ∅; body := None |}
  | _ => Resp (ok_response (PDict [("ok", PInt 1)]))
  end.

(** ["/B"] answers 200 with bytes that are not JSON. *)
Definition b_malformed (c : call) : reply :=
  match address c with
  | TStr "/B" =>
      Resp {| status := 200; reason := "OK"; resp_headers := ∅; body := None |}
  | _ => Resp (ok_response (PDict [("ok", PInt 1)]))
  end.

(** ["/B"] times out. *)
Definition b_timeout (c : call) : reply :=
  match address c with
  | TStr "/B" => Fail "TimeoutError"
  | _ => Resp (ok_response (PDict [("ok", PInt 1)]))
  end.

(** Every address answers 404. *)
Definition always_404 (c : call) : reply :=
  Resp {| status := 404; reason := "Not Found"; resp_headers := ∅;
          body := Some (PDict []) |}.


(** [ready_host] before anything assigned [remaining_calls]. *)
Definition unset_quota_host : Host := with_remaining_calls None ready_host.

(** [ready_host] once the quota is known to be used up. *)
Definition exhausted_host : Host := with_remaining_calls (Some (SInt 0)) ready_host.

(** A host configured to read the remaining quota from a header. *)
Definition remaining_key_host : Host :=
  {| headers := Some ∅; _session := None; throttler := Some (5, 60);
     conn := None; call_count_key := None; call_count_limit_key := None;
     call_limit_remaining_key := Some "X-RateLimit-Remaining";
     call_counts := None; call_count_limit := None;
     remaining_calls := Some SNone |}.



(** The 503 response of [b_unavailable]. *)
Definition unavailable_response : Response :=
  {| status := 503; reason := "Service Unavailable"; resp_headers := ∅;
     body := None |}.

(** The session a host with empty [headers] creates. *)
Definition fresh_session : Session := {| sess_headers := ∅; closed := false |}.

Definition with_headers (v : option (gmap string string)) (h : Host) : Host :=
  {| headers := v; _session := _session h; throttler := throttler h;
     conn := conn h; call_count_key := call_count_key h;
     call_count_limit_key := call_count_limit_key h;
     call_limit_remaining_key := call_limit_remaining_key h;
     call_counts := call_counts h; call_count_limit := call_count_limit h;
     remaining_calls := remaining_calls h |}.

(** [ready_host] without a [headers] attribute. *)
Definition headerless_host : Host := with_headers None ready_host.

(** [ready_host] before anything assigned [call_counts]. *)
Definition uncounted_host : Host := with_call_counts None ready_host.

(** [ready_host] before [set_rate_limit]. *)
Definition unthrottled_host : Host := with_throttler None ready_host.

(** [ready_host] with its session created. *)
Definition open_host : Host :=
  with_session_attr (Some {| sess_headers := ∅; closed := false |}) ready_host.

(** [ready_host] as a batch leaves it: the session cached and closed. *)
Definition stale_host : Host :=
  with_session_attr (Some {| sess_headers := ∅; closed := true |}) ready_host.

(** Every address answers 200 and reports that no call remains. *)
Definition none_left_response : Response :=
  {| status := 200; reason := "OK";
     resp_headers := <["X-RateLimit-Remaining" := SInt 0]> ∅;
     body := Some (PDict []) |}.

Definition none_left (c : call) : reply := Resp none_left_response.

(** The connection is refused. *)
Definition refuses (c : call) : reply := Fail "ConnectionError".

(** Every address answers 500 with a body that is not JSON. *)
Definition garbled_500_response : Response :=
  {| status := 500; reason := "Internal Server Error"; resp_headers := ∅;
     body := None |}.

Definition garbled_500 (c : call) : reply := Resp garbled_500_response.

(** A coroutine function whose body calls the synchronous [get] on an
    address that answers 404. *)
Definition fetch_missing : pymethod :=
  λ _ _, ret (get always_404 "/missing" ∅).

(** A coroutine function that fails with an ordinary exception. *)
Definition fails_with_value_error : pymethod :=
  λ _ _, ret (raise (ValueError "boom")).

(** A batch that is interrupted from the keyboard while its requests are
    in flight. *)
Definition interrupted_batch : pymethod :=
  λ _ _, ret (with_session (raise KeyboardInterrupt)).

(** A coroutine function that records how it was called. *)
Definition echo : pymethod :=
  λ args kwargs, ret (ret (PList [PList args; PDict kwargs])).

(** A task is steady for an invariant [R] on states when, from every state
    that satisfies [R], it has the same outcome [o] and re-establishes [R]. *)
Definition steady (R : Sys → Prop) (t : M pyval) (o : outcome pyval) : Prop :=
  ∀ s, R s → fst (t s) = o ∧ R (snd (t s)).

(** What the requests of one batch never change: the session, the rate
    limiter, the configured header names and, unless both counter keys are
    configured (in which case every response overwrites them first), the
    two stored counters. *)
Definition same_setup (a h : Host) : Prop :=
  _session h = _session a ∧
  throttler h = throttler a ∧
  call_count_key h = call_count_key a ∧
  call_count_limit_key h = call_count_limit_key a ∧
  call_limit_remaining_key h = call_limit_remaining_key a ∧
  (call_count_key a = None ∨ call_count_limit_key a = None →
   call_counts h = call_counts a ∧ call_count_limit h = call_count_limit a).

(** The guard lets calls through. *)
Definition quota_allows (h : Host) : Prop :=
  remaining_calls h = Some SNone ∨
  ∃ z, remaining_calls h = Some (SInt z) ∧ 0 < z.

(** The call [requests.get] / [requests.post] puts on the wire. *)
Definition sync_wire (v : verb) (url : string) (hs : gmap string string)
    (data : option pyval) : call :=
  {| via := Requests; method_ := v; address := TStr url;
     sent_headers := hs; sent_body := data |}.

(** The state once a call has been written to the log. *)
Definition logged (c : call) (s : Sys) : Sys := snd (record_call c s).

(** [raise_for_status] raises for this status. *)
Definition error_status (st : Z) : bool := (400 <=? st) && (st <? 600).

(** A task sends [c] for an invariant [R] on states when, from every state
    that satisfies [R], it re-establishes [R] and adds exactly the call
    [c] to the log, whatever its outcome. *)
Definition sends (R : Sys → Prop) (t : M pyval) (c : call) : Prop :=
  ∀ s, R s → R (snd (t s)) ∧
             log (world (snd (t s))) = (log (world s) ++ [c])%list.

(** * Properties *)

Section Properties.

Variable transport : call → reply.


(** ** The quota guard *)

Lemma call_limiter_unassigned {A} (func : M A) s :
  remaining_calls (host s) = None →
  call_limiter func s = (Raise (AttributeError "remaining_calls"), s).
Proof.
  intros Hrc. unfold call_limiter, getattr, bind, get_self, raise.
  by rewrite Hrc.
Qed.

Lemma call_limiter_unknown {A} (func : M A) s :
  remaining_calls (host s) = Some SNone →
  call_limiter func s = func s.
Proof.
  intros Hrc. unfold call_limiter, getattr, bind, get_self, ret.
  by rewrite Hrc.
Qed.

Lemma call_limiter_int {A} (func : M A) s z :
  remaining_calls (host s) = Some (SInt z) →
  call_limiter func s = if 0 <? z then func s else (Raise no_calls_left, s).
Proof.
  intros Hrc. unfold call_limiter, getattr, bind, get_self, ret, lift, raise.
  rewrite Hrc. simpl. by destruct (0 <? z).
Qed.

Lemma call_limiter_str {A} (func : M A) s txt :
  remaining_calls (host s) = Some (SStr txt) →
  ∃ msg, call_limiter func s = (Raise (TypeError msg), s).
Proof.
  intros Hrc. unfold call_limiter, getattr, bind, get_self, ret, lift, raise.
  rewrite Hrc. simpl. eauto.
Qed.

(** The guard lets every call through exactly when the counter is [None]
    or a positive integer. *)
Lemma call_limiter_allows s :
  (∀ func : M unit, call_limiter func s = func s) ↔
  remaining_calls (host s) = Some SNone ∨
  ∃ z, remaining_calls (host s) = Some (SInt z) ∧ 0 < z.
Proof.
  split.
  - intros Hall. specialize (Hall (ret tt)).
    destruct (remaining_calls (host s)) as [[|z|txt]|] eqn:Hrc.
    + by left.
    + right. exists z. split; [done|].
      rewrite (call_limiter_int _ _ z Hrc) in Hall.
      destruct (0 <? z) eqn:Hz; [lia | discriminate].
    + destruct (call_limiter_str (ret tt) s txt Hrc) as [msg Hmsg].
      rewrite Hmsg in Hall. discriminate.
    + rewrite (call_limiter_unassigned _ _ Hrc) in Hall. discriminate.
  - intros [Hrc | (z & Hrc & Hz)] func.
    + by apply call_limiter_unknown.
    + rewrite (call_limiter_int _ _ z Hrc).
      destruct (0 <? z) eqn:Hlt; [done | lia].
Qed.

(** C9. The guard reads [remaining_calls] before anything else: on a host
    that never assigned the attribute, [get], [post], [async_get] and
    [async_post] all raise [AttributeError] and leave host and transport
    untouched; and the guard lets calls through only when the attribute
    holds [None] or a positive integer, so the unknown-quota path needs an
    explicit [None]. *)
Theorem unassigned_counter_is_an_error s :
  (remaining_calls (host s) = None →
     (∀ url hs, get transport url hs s = (Raise (AttributeError "remaining_calls"), s)) ∧
     (∀ url data, post transport url data s = (Raise (AttributeError "remaining_calls"), s)) ∧
     (∀ url, async_get transport url s = (Raise (AttributeError "remaining_calls"), s)) ∧
     (∀ url payload,
        async_post transport url payload s = (Raise (AttributeError "remaining_calls"), s))) ∧
  (remaining_calls (host s) = Some SNone →
     ∀ A (func : M A), call_limiter func s = func s) ∧
  ((∀ func : M unit, call_limiter func s = func s) →
     remaining_calls (host s) = Some SNone ∨
     ∃ z, remaining_calls (host s) = Some (SInt z) ∧ 0 < z).
Proof.
  split; [|split].
  - intros Hrc. repeat split; intros;
      unfold get, post, async_get, async_post;
      by apply call_limiter_unassigned.
  - intros Hrc A func. by apply call_limiter_unknown.
  - apply call_limiter_allows.
Qed.

(** C1 (amended). When [remaining_calls] holds an integer that is not
    positive, [get], [post], [async_get] and [async_post] raise
    [ValueError] at once, with the host and the transport log exactly as
    they were; when it holds [None], each of them runs its undecorated
    body. *)
Theorem quota_guard s :
  (∀ z, remaining_calls (host s) = Some (SInt z) → z ≤ 0 →
     (∀ url hs, get transport url hs s = (Raise no_calls_left, s)) ∧
     (∀ url data, post transport url data s = (Raise no_calls_left, s)) ∧
     (∀ url, async_get transport url s = (Raise no_calls_left, s)) ∧
     (∀ url payload, async_post transport url payload s = (Raise no_calls_left, s))) ∧
  (remaining_calls (host s) = Some SNone →
     (∀ url hs, get transport url hs s = get_undecorated transport url hs s) ∧
     (∀ url data, post transport url data s = post_undecorated transport url data s) ∧
     (∀ url, async_get transport url s = (Return (async_get_body transport url), s)) ∧
     (∀ url payload,
        async_post transport url payload s = (Return (async_post_body transport url payload), s))).
Proof.
  split.
  - intros z Hrc Hz.
    assert (Hlt : (0 <? z) = false) by lia.
    repeat split; intros; unfold get, post, async_get, async_post;
      rewrite (call_limiter_int _ _ z Hrc), Hlt; reflexivity.
  - intros Hrc.
    repeat split; intros; unfold get, post, async_get, async_post;
      by rewrite call_limiter_unknown.
Qed.

(** ** The quota tracker *)


Lemma headers_get_present (hs : gmap string scalar) key default v :
  hs !! key = Some v → headers_get hs key default = v.
Proof. intros H. unfold headers_get. by rewrite H. Qed.

Ltac run_check :=
  unfold check_call_limit, getattr, bind, get_self, modify_self, ret, raise,
    lift, on_host; simpl.

Lemma check_call_limit_unfold resp s :
  check_call_limit resp s =
  let h1 := store_counters resp (host s) in
  match call_limit_remaining_key (host s) with
  | Some rk =>
      (Return tt,
       put_host (with_remaining_calls
                   (Some (headers_get (resp_headers resp) rk (SInt 1))) h1) s)
  | None =>
      match call_counts h1 with
      | None => (Raise (AttributeError "call_counts"), put_host h1 s)
      | Some cc =>
          if truthy cc then
            match call_count_limit h1 with
            | None => (Raise (AttributeError "call_count_limit"), put_host h1 s)
            | Some cl =>
                if truthy cl then
                  match py_sub cl cc with
                  | Return d =>
                      (Return tt, put_host (with_remaining_calls (Some d) h1) s)
                  | Raise e => (Raise e, put_host h1 s)
                  end
                else (Return tt, put_host h1 s)
            end
          else (Return tt, put_host h1 s)
      end
  end.
Proof.
  destruct s as [h w]. destruct h as [hd ss th cn ck lk rk cc cl rc].
  run_check. unfold store_counters, put_host. simpl.
  destruct rk as [rk|].
  - destruct ck, lk; simpl; done.
  - destruct ck as [ck|], lk as [lk|]; simpl.
    1: { destruct (truthy (headers_get (resp_headers resp) ck (SInt 0))); simpl;
           [|done].
         destruct (truthy (headers_get (resp_headers resp) lk (SInt 0))); simpl;
           [|done].
         by destruct (py_sub _ _). }
    all: destruct cc as [cc|]; simpl; [|done].
    all: destruct (truthy cc); simpl; [|done].
    all: destruct cl as [cl|]; simpl; [|done].
    all: destruct (truthy cl); simpl; [|done].
    all: by destruct (py_sub _ _).
Qed.


(** With a configured [call_limit_remaining_key] the update cannot fail. *)
Lemma check_call_limit_remaining resp s rk :
  call_limit_remaining_key (host s) = Some rk →
  fst (check_call_limit resp s) = Return tt ∧
  remaining_calls (host (snd (check_call_limit resp s)))
    = Some (headers_get (resp_headers resp) rk (SInt 1)).
Proof.
  intros Hrk. rewrite check_call_limit_unfold. simpl. rewrite Hrk. done.
Qed.




(** ** The synchronous bridge *)

Lemma reset_total s : fst (reset s) = Return tt.
Proof. unfold reset, bind, get_self, modify_self, ret. by destruct (_session (host s)). Qed.

Lemma teardown_session l s : _session (host (teardown l s)) = None.
Proof.
  unfold teardown, reset, loop_close, bind, get_self, modify_self,
    modify_world, ret. simpl.
  destruct (_session (host s)) eqn:Hss; simpl; done.
Qed.

Lemma teardown_loop l s : l ∉ open_loops (world (teardown l s)).
Proof.
  unfold teardown, reset, loop_close, bind, get_self, modify_self,
    modify_world, ret. simpl.
  destruct (_session (host s)); simpl;
    rewrite elem_of_difference, elem_of_singleton; tauto.
Qed.

Lemma teardown_reported l s :
  reported (world (teardown l s)) = reported (world s).
Proof.
  unfold teardown, reset, loop_close, bind, get_self, modify_self,
    modify_world, ret. simpl.
  destruct (_session (host s)); simpl; done.
Qed.

(** [pipeline], read from the outcome of the wrapped run. *)
Lemma pipeline_unfold method args kwargs unpack s :
  pipeline method args kwargs unpack s =
  let l := next_loop (world s) in
  match wrapped_run method args kwargs unpack s with
  | (Return v, s1) => (Return v, teardown l s1)
  | (Raise e, s1) =>
      if is_Exception e
      then (Return PNone, teardown l (snd (print_exception e s1)))
      else (Raise e, s1)
  end.
Proof.
  unfold pipeline, wrapped_run, bridge_entry, teardown.
  unfold bind at 1. simpl.
  unfold bind at 1. simpl.
  unfold bind at 1. unfold try_except.
  destruct (run_method _ _ _ _ _ _) as [[v|e] s1]; simpl.
  - unfold bind, ret. simpl.
    pose proof (reset_total (snd (loop_close (next_loop (world s)) s1))) as Hr.
    simpl in Hr. destruct (reset _) as [o s2]. simpl in *. by subst o.
  - destruct (is_Exception e); [|done].
    unfold bind at 1. unfold print_exception at 1, modify_world at 1, ret.
    simpl. unfold bind. simpl.
    match goal with |- context [reset ?x] =>
      pose proof (reset_total x) as Hr; destruct (reset x) as [o s2] end.
    simpl in *. by subst o.
Qed.

(** C6 (amended). When the wrapped run raises an exception that derives
    from [Exception], [pipeline] prints it, does not re-raise it and
    returns [None]; and whatever the wrapped run does, no exception that
    derives from [Exception] leaves [pipeline]. *)
Theorem pipeline_swallows_exceptions method args kwargs unpack s :
  (∀ e s1,
     wrapped_run method args kwargs unpack s = (Raise e, s1) →
     is_Exception e = true →
     fst (pipeline method args kwargs unpack s) = Return PNone ∧
     reported (world (snd (pipeline method args kwargs unpack s)))
       = (reported (world s1) ++ [e])%list) ∧
  (∀ e,
     fst (pipeline method args kwargs unpack s) = Raise e →
     is_Exception e = false).
Proof.
  rewrite pipeline_unfold. simpl. split.
  - intros e s1 -> ->. simpl. split; [done|].
    by rewrite teardown_reported.
  - intros e. destruct (wrapped_run _ _ _ _ _) as [[v|e'] s1]; simpl.
    + discriminate.
    + destruct (is_Exception e') eqn:He'; simpl; [discriminate|].
      by intros [= <-].
Qed.

(** C7 (amended). Whenever the wrapped run returns or raises an exception
    that derives from [Exception], [pipeline] returns, the loop it created
    is closed and the cached session is gone; and the next [pipeline] call
    on the state it leaves starts its method with a newly opened loop, the
    connector bound to that loop and no cached session. *)
Theorem pipeline_tears_down method args kwargs unpack s :
  (∀ e s1, wrapped_run method args kwargs unpack s = (Raise e, s1) →
           is_Exception e = true) →
  ∀ s', s' = snd (pipeline method args kwargs unpack s) →
  (∃ v, fst (pipeline method args kwargs unpack s) = Return v) ∧
  (next_loop (world s) ∉ open_loops (world s')) ∧
  _session (host s') = None ∧
  (next_loop (world s') ∈ open_loops (world (bridge_entry s'))) ∧
  conn (host (bridge_entry s')) = Some (next_loop (world s')) ∧
  _session (host (bridge_entry s')) = None.
Proof.
  intros Hexc s' ->.
  set (s' := snd (pipeline method args kwargs unpack s)).
  assert (Hdown : (∃ v, fst (pipeline method args kwargs unpack s) = Return v) ∧
                  ∃ s1, s' = teardown (next_loop (world s)) s1).
  { subst s'. rewrite pipeline_unfold. simpl.
    destruct (wrapped_run _ _ _ _ _) as [[v|e] s1] eqn:Hrun; simpl.
    - eauto.
    - rewrite (Hexc e s1 eq_refl). simpl. eauto. }
  destruct Hdown as [Hret [s1 Hs']].
  split; [exact Hret|]. rewrite Hs'.
  split; [apply teardown_loop|].
  split; [apply teardown_session|].
  unfold bridge_entry, _async_conn, new_event_loop, modify_self. simpl.
  split; [apply elem_of_union_l, elem_of_singleton; reflexivity|].
  split; [reflexivity|]. apply teardown_session.
Qed.

(** C10. With a non-empty [args], [pipeline] does the same whatever
    [kwargs] holds: the method is called with the elements of [args] when
    [unpack] is true and with the list as its single argument otherwise,
    never with keyword arguments; [kwargs] reaches the method only when
    [args] is empty or absent. *)
Theorem pipeline_ignores_kwargs method unpack s :
  (∀ args kwargs, args ≠ [] →
     pipeline method (Some args) kwargs unpack s
       = pipeline method (Some args) None unpack s ∧
     ∀ loop,
       run_method method args (default [] kwargs) unpack loop
         = (coro <- method (if unpack then args else [PList args]) [] ;;
            run_until_complete loop coro)) ∧
  (∀ args kwargs, default [] args = [] → kwargs ≠ [] →
     ∀ loop,
       run_method method (default [] args) kwargs unpack loop
         = (coro <- method [] kwargs ;; run_until_complete loop coro)).
Proof.
  split.
  - intros args kwargs Hargs.
    assert (Hrun : ∀ kw loop,
      run_method method args kw unpack loop
        = (coro <- method (if unpack then args else [PList args]) [] ;;
           run_until_complete loop coro)).
    { intros kw loop. unfold run_method.
      destruct args as [|a args]; [done|]. simpl. by destruct unpack. }
    split; [|intros; apply Hrun].
    rewrite !pipeline_unfold. unfold wrapped_run. simpl.
    by rewrite !Hrun.
  - intros args kwargs -> Hkw loop. unfold run_method. simpl.
    destruct kwargs; done.
Qed.

(** ** Joining the tasks *)

Section Gather.

Variable R : Sys → Prop.
Variable tasks : list (M pyval).
Variable outs : list (outcome pyval).
Hypothesis tasks_steady : Forall2 (steady R) tasks outs.

Lemma run_tasks_spec order :
  ∀ (done : gmap nat pyval) s,
    R s →
    (∀ i r, done !! i = Some r → outs !! i = Some (Return r)) →
    match run_tasks tasks order done s with
    | (Return done', s') =>
        R s' ∧
        (∀ i r, done' !! i = Some r → outs !! i = Some (Return r)) ∧
        (∀ i, is_Some (done !! i) → is_Some (done' !! i)) ∧
        (∀ i, i ∈ order → (i < length tasks)%nat → is_Some (done' !! i))
    | (Raise e, _) => Raise e ∈ outs
    end.
Proof.
  induction order as [|i rest IH]; intros done s HR Hdone; simpl.
  - unfold ret. repeat split; try done.
    intros i Hi. by apply elem_of_nil in Hi.
  - destruct (tasks !! i) as [t|] eqn:Ht.
    + destruct (done !! i) as [r0|] eqn:Hd.
      * specialize (IH done s HR Hdone).
        destruct (run_tasks tasks rest done s) as [[done'|e] s']; [|done].
        destruct IH as (HR' & Hval & Hmono & Hin).
        repeat split; try done.
        intros j [->|Hj]%elem_of_cons Hlt; [|by apply Hin].
        apply Hmono. by rewrite Hd.
      * unfold bind.
        destruct (Forall2_lookup_l _ _ _ _ _ tasks_steady Ht)
          as (o & Ho & Hst).
        destruct (Hst s HR) as [Hfst HR1].
        destruct (t s) as [[r|e] s1]; simpl in *; subst o.
        -- assert (Hdone1 : ∀ j r', <[i:=r]> done !! j = Some r' →
                                    outs !! j = Some (Return r')).
           { intros j r'. destruct (decide (i = j)) as [->|Hne].
             - rewrite lookup_insert_eq. by intros [= <-].
             - rewrite lookup_insert_ne by done. apply Hdone. }
           specialize (IH (<[i:=r]> done) s1 HR1 Hdone1).
           destruct (run_tasks tasks rest (<[i:=r]> done) s1)
             as [[done'|e] s']; [|done].
           destruct IH as (HR' & Hval & Hmono & Hin).
           repeat split; try done.
           ++ intros j Hj. apply Hmono.
              destruct (decide (i = j)) as [->|Hne].
              ** rewrite lookup_insert_eq. eauto.
              ** by rewrite lookup_insert_ne.
           ++ intros j [->|Hj]%elem_of_cons Hlt; [|by apply Hin].
              apply Hmono. rewrite lookup_insert_eq. eauto.
        -- by eapply list_elem_of_lookup_2.
    + specialize (IH done s HR Hdone).
      assert (Hskip : match done !! i with
                      | Some _ | None => run_tasks tasks rest done
                      end = run_tasks tasks rest done) by by destruct (done !! i).
      destruct (run_tasks tasks rest done s) as [[done'|e] s'] eqn:Hrun.
      * destruct IH as (HR' & Hval & Hmono & Hin).
        repeat split; try done.
        intros j [->|Hj]%elem_of_cons Hlt; [|by apply Hin].
        apply lookup_ge_None in Ht. lia.
      * done.
Qed.

Lemma collect_spec (done : gmap nat pyval) :
  ∀ (os : list (outcome pyval)) k,
    (∀ j, (j < length os)%nat →
          ∃ r, done !! (k + j)%nat = Some r ∧ os !! j = Some (Return r)) →
    Return <$> omap (λ i, done !! i) (seq k (length os)) = os.
Proof.
  induction os as [|o os IH]; intros k Hall; [done|]. simpl.
  destruct (Hall 0%nat) as (r & Hr & Ho); [simpl; lia|].
  rewrite Nat.add_0_r in Hr. rewrite Hr. simpl in *.
  injection Ho as <-. f_equal. apply IH. intros j Hj.
  destruct (Hall (S j)) as (r' & Hr' & Ho'); [lia|].
  exists r'. split; [|done].
  by replace (S k + j)%nat with (k + S j)%nat by lia.
Qed.

(** The join hands back one result per task, in the order of the tasks,
    whatever the completion order; it raises only what some task raises. *)
Lemma gather_spec order s :
  R s →
  match gather order tasks s with
  | (Return rs, s') => R s' ∧ outs = Return <$> rs
  | (Raise e, _) => Raise e ∈ outs
  end.
Proof.
  intros HR. unfold gather, bind.
  pose proof (run_tasks_spec (order ++ seq 0 (length tasks)) ∅ s HR) as Hrun.
  destruct (run_tasks tasks _ ∅ s) as [[done|e] s'].
  - destruct Hrun as (HR' & Hval & _ & Hin).
    { intros i r. by rewrite lookup_empty. }
    unfold ret. split; [done|]. symmetry.
    rewrite (Forall2_length _ _ _ tasks_steady).
    apply collect_spec. intros j Hj. simpl.
    destruct (Hin j) as [r Hr].
    + apply elem_of_app. right. apply elem_of_seq.
      rewrite (Forall2_length _ _ _ tasks_steady). lia.
    + rewrite (Forall2_length _ _ _ tasks_steady). done.
    + exists r. split; [done|]. by apply Hval.
  - apply Hrun. intros i r. by rewrite lookup_empty.
Qed.

End Gather.

(** ** One request *)

Lemma same_setup_refl a : same_setup a a.
Proof. unfold same_setup. naive_solver. Qed.

Lemma session_cached s ss :
  _session (host s) = Some ss → session s = (Return ss, s).
Proof.
  intros Hss. unfold session, bind, get_self, ret. simpl. by rewrite Hss.
Qed.

Lemma session_returns s ss s1 :
  session s = (Return ss, s1) →
  _session (host s1) = Some ss ∧
  remaining_calls (host s1) = remaining_calls (host s) ∧
  throttler (host s1) = throttler (host s).
Proof.
  unfold session, getattr, bind, get_self, modify_self, ret, raise. simpl.
  destruct (_session (host s)) as [ss0|] eqn:Hss.
  - intros [= <- <-]. done.
  - destruct (headers (host s)); simpl; [|discriminate].
    intros [= <- <-]. done.
Qed.

Lemma session_dispatch s ss :
  fst (session s) = Return ss → session s = (Return ss, dispatch s).
Proof. unfold dispatch. destruct (session s). simpl. by intros ->. Qed.

Lemma check_call_limit_steady resp a s :
  same_setup (host a) (host s) →
  fst (check_call_limit resp s) = fst (check_call_limit resp a) ∧
  same_setup (host a) (host (snd (check_call_limit resp s))).
Proof.
  rewrite !check_call_limit_unfold.
  destruct s as [h w], a as [ha wa].
  destruct h as [hd ss th cn ck lk rk cc cl rc].
  destruct ha as [hd' ss' th' cn' ck' lk' rk' cc' cl' rc'].
  unfold same_setup, store_counters, put_host. simpl.
  intros (-> & -> & -> & -> & -> & Hc).
  destruct rk' as [rk|]; simpl.
  - destruct ck' as [ck|], lk' as [lk|]; simpl; naive_solver.
  - destruct ck' as [ck|], lk' as [lk|]; simpl.
    1: { repeat case_match; simpl; naive_solver. }
    all: assert (Hc' : cc = cc' ∧ cl = cl') by (apply Hc; auto).
    all: destruct Hc' as [-> ->].
    all: repeat case_match; simpl; naive_solver.
Qed.

Lemma exchange_unfold v url payload s ss :
  _session (host s) = Some ss →
  exchange transport v url payload s =
  match throttler (host s) with
  | None => (Raise (AttributeError "throttler"), s)
  | Some _ =>
      if closed ss then (Raise (RuntimeError "Session is closed"), s)
      else
        let s1 := snd (record_call (wire ss v url payload) s) in
        match transport (wire ss v url payload) with
        | Fail name => (Raise (TransportError name), s1)
        | Resp r =>
            if status r =? 200 then
              match check_call_limit r s1 with
              | (Return _, s2) => json r s2
              | (Raise e, s2) => (Raise e, s2)
              end
            else (Return (error_payload (reason r)), s1)
        end
  end.
Proof.
  intros Hss. unfold exchange, session_call.
  unfold bind at 1. unfold getattr, bind at 1, get_self. simpl.
  destruct (throttler (host s)) as [th|]; simpl; [|done].
  unfold bind at 1. unfold bind at 1. rewrite (session_cached _ _ Hss).
  destruct (closed ss); simpl; [done|].
  unfold bind at 1. unfold record_call at 1, modify_world at 1. simpl.
  fold (wire ss v url payload).
  destruct (transport (wire ss v url payload)) as [r|name]; simpl; [|done].
  destruct (status r =? 200); [|done].
  unfold bind. by destruct (check_call_limit r _) as [[[]|e] s2].
Qed.

(** A request has the same outcome from every state of one batch. *)
Lemma exchange_steady v url payload a :
  is_Some (_session (host a)) →
  steady (λ s, same_setup (host a) (host s))
    (exchange transport v url payload)
    (fst (exchange transport v url payload a)).
Proof.
  intros [ss Hss] s Hsame.
  assert (Hss' : _session (host s) = Some ss).
  { destruct Hsame as (-> & _). done. }
  rewrite (exchange_unfold _ _ _ s ss Hss'), (exchange_unfold _ _ _ a ss Hss).
  assert (Hth : throttler (host s) = throttler (host a)) by apply Hsame.
  rewrite Hth. destruct (throttler (host a)); simpl; [|done].
  destruct (closed ss); simpl; [done|].
  destruct (transport (wire ss v url payload)) as [r|name]; simpl; [|done].
  destruct (status r =? 200); simpl; [|done].
  pose proof (check_call_limit_steady r
                (snd (record_call (wire ss v url payload) a))
                (snd (record_call (wire ss v url payload) s)) Hsame) as [Hfst Hset].
  simpl in *.
  destruct (check_call_limit r (on_world _ s)) as [[[]|e] s2],
           (check_call_limit r (on_world _ a)) as [[[]|e'] a2];
    simpl in *; try discriminate.
  - unfold json. destruct (body r); simpl; done.
  - injection Hfst as <-. by split.
Qed.

(** ** A batch *)

Section Batch.

Context {D : Type}.
Variable body : D → M pyval.
Variable request : D → verb * target * option pyval.
Hypothesis body_exchange :
  ∀ d, body d = exchange transport (request d).1.1 (request d).1.2 (request d).2.

Lemma guarded_coroutine (x : M pyval) s :
  call_limiter (ret x) s = (Return x, s) ∨
  ∃ e, call_limiter (ret x) s = (Raise e, s).
Proof.
  destruct (remaining_calls (host s)) as [[|z|txt]|] eqn:Hrc.
  - left. by rewrite call_limiter_unknown.
  - rewrite (call_limiter_int _ _ z Hrc). destruct (0 <? z); eauto.
  - right. destruct (call_limiter_str (ret x) s txt Hrc) as [msg ->]. eauto.
  - right. rewrite call_limiter_unassigned by done. eauto.
Qed.

(** Creating the tasks runs the guard once per descriptor and nothing
    else. *)
Lemma spawn_all_returns descs s ts s' :
  spawn_all (λ d, call_limiter (ret (body d))) descs s = (Return ts, s') →
  ts = body <$> descs ∧ s' = s.
Proof.
  revert ts s'. induction descs as [|d descs IH]; intros ts s'; simpl.
  - by intros [= <- <-].
  - unfold bind at 1.
    destruct (guarded_coroutine (body d) s) as [-> | [e ->]]; [|discriminate].
    unfold bind at 1.
    destruct (spawn_all _ descs s) as [[ts'|e] s1]; [|discriminate].
    destruct (IH ts' s1 eq_refl) as [-> ->].
    by intros [= <- <-].
Qed.

Lemma spawn_all_allowed descs s :
  quota_allows (host s) →
  spawn_all (λ d, call_limiter (ret (body d))) descs s
    = (Return (body <$> descs), s).
Proof.
  intros Hq. induction descs as [|d descs IH]; simpl; [done|].
  unfold bind at 1.
  assert (Hgo : call_limiter (ret (body d)) s = (Return (body d), s)).
  { destruct Hq as [Hrc | (z & Hrc & Hz)].
    - by rewrite call_limiter_unknown.
    - rewrite (call_limiter_int _ _ z Hrc).
      destruct (0 <? z) eqn:Hlt; [done | lia]. }
  rewrite Hgo. unfold bind. by rewrite IH.
Qed.

Lemma bodies_steady descs a :
  is_Some (_session (host a)) →
  Forall2 (steady (λ s, same_setup (host a) (host s)))
    (body <$> descs) ((λ d, fst (body d a)) <$> descs).
Proof.
  intros Hss. apply Forall2_fmap, Forall_Forall2_diag, Forall_forall.
  intros d _. rewrite body_exchange. by apply exchange_steady.
Qed.

(** Whenever a batch returns, it returns one result per descriptor, in the
    order of the descriptors, and the result at each index is the one
    its request has when run alone from the dispatch state. *)
Lemma batch_returns order descs s rs s' :
  batch body order descs s = (Return rs, s') →
  length rs = length descs ∧
  ∀ i d, descs !! i = Some d →
         ∃ r, rs !! i = Some r ∧ fst (body d (dispatch s)) = Return r.
Proof.
  unfold batch, with_session, dispatch. unfold bind at 1.
  destruct (session s) as [[ss|e] s1] eqn:Hsess; [|discriminate]. simpl.
  unfold bind at 1.
  destruct (spawn_all _ descs s1) as [[ts|e] s1'] eqn:Hsp; [|discriminate].
  apply spawn_all_returns in Hsp as [-> ->].
  destruct (session_returns _ _ _ Hsess) as (Hss & _ & _).
  pose proof (gather_spec _ _ _ (bodies_steady descs s1 (ex_intro _ ss Hss))
                order s1 (same_setup_refl _)) as Hg.
  destruct (gather order (body <$> descs) s1) as [[rs'|e] s2]; [|discriminate].
  destruct Hg as [_ Houts]. intros [= <- <-].
  split.
  - apply (f_equal length) in Houts. by rewrite !length_fmap in Houts.
  - intros i d Hd.
    apply (f_equal (λ l, l !! i)) in Houts.
    rewrite !list_lookup_fmap, Hd in Houts. simpl in Houts.
    destruct (rs' !! i) as [r|]; [|discriminate].
    exists r. split; [done|]. by injection Houts.
Qed.

(** A batch returns as soon as the session can be had, the guard lets the
    calls through and no request raises when run alone. *)
Lemma batch_total order descs s ss s1 :
  session s = (Return ss, s1) →
  quota_allows (host s) →
  (∀ d, d ∈ descs → ∃ r, fst (body d s1) = Return r) →
  ∃ rs s', batch body order descs s = (Return rs, s').
Proof.
  intros Hsess Hq Hall.
  destruct (session_returns _ _ _ Hsess) as (Hss & Hrc & _).
  assert (Hq1 : quota_allows (host s1)).
  { unfold quota_allows in *. by rewrite Hrc. }
  unfold batch, with_session. unfold bind at 1. rewrite Hsess.
  unfold bind at 1. rewrite (spawn_all_allowed descs s1 Hq1).
  pose proof (gather_spec _ _ _ (bodies_steady descs s1 (ex_intro _ ss Hss))
                order s1 (same_setup_refl _)) as Hg.
  destruct (gather order (body <$> descs) s1) as [[rs|e] s2]; [eauto|].
  apply list_elem_of_fmap in Hg as (d & Hd & Hin).
  destruct (Hall d Hin) as [r Hr]. congruence.
Qed.

End Batch.

Lemma process_gets_batch order urls :
  process_gets transport order urls
    = batch (async_get_body transport) order urls.
Proof. reflexivity. Qed.

Lemma process_posts_batch order urls payloads :
  process_posts transport order urls payloads
    = batch (λ d, async_post_body transport d.1 d.2) order
        (zip (replicate_urls urls payloads) payloads).
Proof. reflexivity. Qed.

(** A response whose status is not 200 never raises: it degrades. *)
Lemma exchange_degrades v url payload s ss r :
  _session (host s) = Some ss →
  closed ss = false →
  is_Some (throttler (host s)) →
  transport (wire ss v url payload) = Resp r →
  status r ≠ 200 →
  fst (exchange transport v url payload s) = Return (error_payload (reason r)).
Proof.
  intros Hss Hopen [th Hth] Hr Hst.
  rewrite (exchange_unfold _ _ _ s ss Hss), Hth, Hopen. simpl. rewrite Hr.
  destruct (status r =? 200) eqn:Heq; [lia | done].
Qed.

(** C2 (amended). In a batch whose session is open and whose guard and
    rate limiter are in place, a request whose response carries a status
    other than 200 neither cancels nor fails the batch: provided every
    other request returns on its own, the batch returns, the index of the
    failed request holds the uniform error payload built from the reason
    of its response, and every index holds the result of its own
    request.  This holds for [process_gets] and for [process_posts]. *)
Theorem failed_status_degrades order s ss :
  fst (session s) = Return ss →
  closed ss = false →
  is_Some (throttler (host s)) →
  quota_allows (host s) →
  (∀ urls,
     (∀ url, url ∈ urls →
        (∃ r, transport (wire ss GET (TStr url) None) = Resp r ∧ status r ≠ 200) ∨
        (∃ v, fst (async_get_body transport url (dispatch s)) = Return v)) →
     ∃ rs s',
       process_gets transport order urls s = (Return rs, s') ∧
       length rs = length urls ∧
       ∀ i url, urls !! i = Some url →
         (∀ r, transport (wire ss GET (TStr url) None) = Resp r →
               status r ≠ 200 →
               rs !! i = Some (error_payload (reason r))) ∧
         (∀ v, fst (async_get_body transport url (dispatch s)) = Return v →
               rs !! i = Some v)) ∧
  (∀ urls payloads,
     (∀ url payload,
        (url, payload) ∈ zip (replicate_urls urls payloads) payloads →
        (∃ r, transport (wire ss POST url (Some payload)) = Resp r ∧
              status r ≠ 200) ∨
        (∃ v, fst (async_post_body transport url payload (dispatch s)) = Return v)) →
     ∃ rs s',
       process_posts transport order urls payloads s = (Return rs, s') ∧
       length rs = length (zip (replicate_urls urls payloads) payloads) ∧
       ∀ i url payload,
         zip (replicate_urls urls payloads) payloads !! i = Some (url, payload) →
         (∀ r, transport (wire ss POST url (Some payload)) = Resp r →
               status r ≠ 200 →
               rs !! i = Some (error_payload (reason r))) ∧
         (∀ v, fst (async_post_body transport url payload (dispatch s)) = Return v →
               rs !! i = Some v)).
Proof.
  intros Hsess%session_dispatch Hopen Hth Hq.
  destruct (session_returns _ _ _ Hsess) as (Hss & _ & Hth1).
  rewrite <- Hth1 in Hth.
  assert (Hdeg : ∀ v url payload r,
            transport (wire ss v url payload) = Resp r → status r ≠ 200 →
            fst (exchange transport v url payload (dispatch s))
              = Return (error_payload (reason r))).
  { intros. by eapply exchange_degrades. }
  split.
  - intros urls Hall.
    destruct (batch_total (async_get_body transport)
                (λ url, (GET, TStr url, None)) (λ d, eq_refl)
                order urls s ss (dispatch s) Hsess Hq) as (rs & s' & Hrun).
    { intros url Hin. destruct (Hall url Hin) as [(r & Hr & Hst) | Hv]; [|done].
      eexists. by apply (Hdeg GET (TStr url) None r). }
    exists rs, s'. rewrite process_gets_batch. split; [done|].
    destruct (batch_returns (async_get_body transport)
                (λ url, (GET, TStr url, None)) (λ d, eq_refl)
                _ _ _ _ _ Hrun) as [Hlen Hnth].
    split; [done|]. intros i url Hi.
    destruct (Hnth i url Hi) as (r0 & Hr0 & Hres). split.
    + intros r Hr Hst. rewrite Hr0. f_equal.
      pose proof (Hdeg GET (TStr url) None r Hr Hst) as Hd.
      change (exchange transport GET (TStr url) None)
        with (async_get_body transport url) in Hd.
      rewrite Hres in Hd. by injection Hd.
    + intros v Hv. rewrite Hr0. rewrite Hres in Hv. by injection Hv as ->.
  - intros urls payloads Hall.
    destruct (batch_total (λ d, async_post_body transport d.1 d.2)
                (λ d, (POST, d.1, Some d.2)) (λ d, eq_refl)
                order (zip (replicate_urls urls payloads) payloads)
                s ss (dispatch s) Hsess Hq) as (rs & s' & Hrun).
    { intros [url payload] Hin.
      destruct (Hall url payload Hin) as [(r & Hr & Hst) | Hv]; [|done].
      eexists. by apply (Hdeg POST url (Some payload) r). }
    exists rs, s'. rewrite process_posts_batch. split; [done|].
    destruct (batch_returns (λ d, async_post_body transport d.1 d.2)
                (λ d, (POST, d.1, Some d.2)) (λ d, eq_refl)
                _ _ _ _ _ Hrun) as [Hlen Hnth].
    split; [done|]. intros i url payload Hi.
    destruct (Hnth i _ Hi) as (r0 & Hr0 & Hres). simpl in Hres. split.
    + intros r Hr Hst. rewrite Hr0. f_equal.
      pose proof (Hdeg POST url (Some payload) r Hr Hst) as Hd.
      change (exchange transport POST url (Some payload))
        with (async_post_body transport url payload) in Hd.
      rewrite Hres in Hd. by injection Hd.
    + intros v Hv. rewrite Hr0. rewrite Hres in Hv. by injection Hv as ->.
Qed.

(** ** The replication rule of process_posts *)

Lemma zip_replicate {A B} (a : A) (bs : list B) :
  zip (replicate (length bs) a) bs = (λ b, (a, b)) <$> bs.
Proof. induction bs as [|b bs IH]; simpl; [done|]. by rewrite IH. Qed.

(** A bare string is paired with every payload. *)
Lemma bare_string_is_broadcast a payloads :
  zip (replicate_urls (UStr a) payloads) payloads
    = (λ p, (TStr a, p)) <$> payloads.
Proof. apply zip_replicate. Qed.

(** C4. A one-element list is not replicated element by element: every
    payload is paired with the list itself, which is not the address the
    list holds, so no call of the batch is addressed to that string. *)
Theorem one_element_list_is_not_broadcast a payloads :
  zip (replicate_urls (UList [a]) payloads) payloads
    = (λ p, (TList [a], p)) <$> payloads ∧
  TList [a] ≠ TStr a.
Proof. split; [apply zip_replicate | discriminate]. Qed.

(** ** Results against the inputs *)

Lemma zip_addresses_lookup (l : list string) (payloads : list pyval) i d :
  zip (TStr <$> l) payloads !! i = Some d ↔
  ∃ url p, d = (TStr url, p) ∧ l !! i = Some url ∧ payloads !! i = Some p.
Proof.
  split.
  - intros (x & p & -> & Hx & Hp)%lookup_zip_with_Some.
    rewrite list_lookup_fmap in Hx.
    destruct (l !! i) as [url|]; [|discriminate].
    injection Hx as <-. by exists url, p.
  - intros (url & p & -> & Hurl & Hp). apply lookup_zip_with_Some.
    exists (TStr url), p. split; [done|]. split; [|done].
    by rewrite list_lookup_fmap, Hurl.
Qed.

Lemma replicate_urls_list (l : list string) payloads :
  length l ≠ 1%nat → replicate_urls (UList l) payloads = TStr <$> l.
Proof.
  intros Hlen. unfold replicate_urls.
  destruct (length l =? 1)%nat eqn:Heq; [|done].
  apply Nat.eqb_eq in Heq. lia.
Qed.

(** C3 (amended). Whatever the completion order: the list [process_gets]
    returns has the length of [urls] and its element [i] is the result
    the request for [urls[i]] has on its own; the list [process_posts]
    returns for a bare string address has the length of [payloads] and
    its element [i] is the result of posting [payloads[i]] to that
    address; and the list it returns for a list of addresses that is not
    a singleton has the length of the shorter of [urls] and [payloads]
    and its element [i] is the result of posting [payloads[i]] to
    [urls[i]].  In each case a list is returned once the session can be
    had, the guard lets the calls through and every one of these
    requests returns on its own. *)
Theorem batch_results_follow_input_order order s :
  (∀ urls rs s',
     process_gets transport order urls s = (Return rs, s') →
     length rs = length urls ∧
     ∀ i url, urls !! i = Some url →
       ∃ r, rs !! i = Some r ∧
            fst (async_get_body transport url (dispatch s)) = Return r) ∧
  (∀ a payloads rs s',
     process_posts transport order (UStr a) payloads s = (Return rs, s') →
     length rs = length payloads ∧
     ∀ i p, payloads !! i = Some p →
       ∃ r, rs !! i = Some r ∧
            fst (async_post_body transport (TStr a) p (dispatch s)) = Return r) ∧
  (∀ l payloads rs s',
     length l ≠ 1%nat →
     process_posts transport order (UList l) payloads s = (Return rs, s') →
     length rs = (length l `min` length payloads)%nat ∧
     ∀ i url p, l !! i = Some url → payloads !! i = Some p →
       ∃ r, rs !! i = Some r ∧
            fst (async_post_body transport (TStr url) p (dispatch s)) = Return r) ∧
  (∀ ss, fst (session s) = Return ss → quota_allows (host s) →
     (∀ urls,
        (∀ url, url ∈ urls →
           ∃ r, fst (async_get_body transport url (dispatch s)) = Return r) →
        ∃ rs s', process_gets transport order urls s = (Return rs, s')) ∧
     (∀ a payloads,
        (∀ p, p ∈ payloads →
           ∃ r, fst (async_post_body transport (TStr a) p (dispatch s)) = Return r) →
        ∃ rs s',
          process_posts transport order (UStr a) payloads s = (Return rs, s')) ∧
     (∀ l payloads,
        length l ≠ 1%nat →
        (∀ i url p, l !! i = Some url → payloads !! i = Some p →
           ∃ r, fst (async_post_body transport (TStr url) p (dispatch s)) = Return r) →
        ∃ rs s',
          process_posts transport order (UList l) payloads s = (Return rs, s'))).
Proof.
  split; [|split; [|split]].
  - intros urls rs s' Hrun. rewrite process_gets_batch in Hrun.
    exact (batch_returns (async_get_body transport)
             (λ url, (GET, TStr url, None)) (λ d, eq_refl) _ _ _ _ _ Hrun).
  - intros a payloads rs s' Hrun. rewrite process_posts_batch in Hrun.
    rewrite bare_string_is_broadcast in Hrun.
    destruct (batch_returns (λ d, async_post_body transport d.1 d.2)
                (λ d, (POST, d.1, Some d.2)) (λ d, eq_refl)
                _ _ _ _ _ Hrun) as [Hlen Hnth].
    rewrite length_fmap in Hlen. split; [done|].
    intros i p Hp. apply (Hnth i (TStr a, p)).
    by rewrite list_lookup_fmap, Hp.
  - intros l payloads rs s' Hl Hrun. rewrite process_posts_batch in Hrun.
    rewrite (replicate_urls_list l payloads Hl) in Hrun.
    destruct (batch_returns (λ d, async_post_body transport d.1 d.2)
                (λ d, (POST, d.1, Some d.2)) (λ d, eq_refl)
                _ _ _ _ _ Hrun) as [Hlen Hnth].
    split.
    + rewrite Hlen. by rewrite length_zip_with, length_fmap.
    + intros i url p Hurl Hp. apply (Hnth i (TStr url, p)).
      apply zip_addresses_lookup. by exists url, p.
  - intros ss Hsess%session_dispatch Hq. split; [|split].
    + intros urls Hall. rewrite process_gets_batch.
      exact (batch_total (async_get_body transport)
               (λ url, (GET, TStr url, None)) (λ d, eq_refl)
               order urls s ss (dispatch s) Hsess Hq Hall).
    + intros a payloads Hall. rewrite process_posts_batch.
      rewrite bare_string_is_broadcast.
      apply (batch_total (λ d, async_post_body transport d.1 d.2)
               (λ d, (POST, d.1, Some d.2)) (λ d, eq_refl)
               order _ s ss (dispatch s) Hsess Hq).
      intros d (p & -> & Hp)%list_elem_of_fmap. by apply Hall.
    + intros l payloads Hl Hall. rewrite process_posts_batch.
      rewrite (replicate_urls_list l payloads Hl).
      apply (batch_total (λ d, async_post_body transport d.1 d.2)
               (λ d, (POST, d.1, Some d.2)) (λ d, eq_refl)
               order _ s ss (dispatch s) Hsess Hq).
      intros d (i & Hi)%list_elem_of_lookup_1.
      apply zip_addresses_lookup in Hi as (url & p & -> & Hurl & Hp).
      exact (Hall i url p Hurl Hp).
Qed.

End Properties.

(** * Runs on concrete inputs *)

Lemma unassigned_counter_is_an_error_witness :
  remaining_calls (host (sys_of bare_host)) = None ∧
  get always_ok "/A" ∅ (sys_of bare_host)
    = (Raise (AttributeError "remaining_calls"), sys_of bare_host) ∧
  async_get always_ok "/A" (sys_of ready_host)
    = (Return (async_get_body always_ok "/A"), sys_of ready_host).
Proof.
  split; [reflexivity|]. split.
  - exact (proj1 (proj1 (unassigned_counter_is_an_error always_ok
                           (sys_of bare_host)) eq_refl) "/A" ∅).
  - exact (proj1 (proj2 (unassigned_counter_is_an_error always_ok
                           (sys_of ready_host))) eq_refl _ _).
Defined.

(** A host that never assigned [remaining_calls] has never observed a
    quota, yet its call does not proceed: [get] raises before the
    transport is touched, where the undecorated body would have returned
    the document. *)
Lemma never_observed_counter_blocks_the_call :
  remaining_calls unset_quota_host = None ∧
  get always_ok "/A" ∅ (sys_of unset_quota_host)
    = (Raise (AttributeError "remaining_calls"), sys_of unset_quota_host) ∧
  fst (get_undecorated always_ok "/A" ∅ (sys_of unset_quota_host))
    = Return (PDict [("ok", PInt 1)]).
Proof. repeat split. Qed.

(** A counter taken from a header is a string: the comparison of the
    guard then raises [TypeError], whether the header says 0 or 5. *)
Example string_counter_raises_type_error :
  (∃ msg, fst (get always_ok "/A" ∅
                 (sys_of (with_remaining_calls (Some (SStr "0")) ready_host)))
          = Raise (TypeError msg)) ∧
  (∃ msg, fst (get always_ok "/A" ∅
                 (sys_of (with_remaining_calls (Some (SStr "5")) ready_host)))
          = Raise (TypeError msg)).
Proof. split; eexists; reflexivity. Qed.

Lemma quota_guard_witness :
  remaining_calls (host (sys_of exhausted_host)) = Some (SInt 0) ∧
  post always_ok "/A" PNone (sys_of exhausted_host)
    = (Raise no_calls_left, sys_of exhausted_host) ∧
  remaining_calls (host (sys_of ready_host)) = Some SNone ∧
  get always_ok "/A" ∅ (sys_of ready_host)
    = get_undecorated always_ok "/A" ∅ (sys_of ready_host).
Proof.
  split; [reflexivity|]. split.
  - apply (proj1 (quota_guard always_ok (sys_of exhausted_host)) 0);
      [reflexivity | lia].
  - split; [reflexivity|].
    apply (proj2 (quota_guard always_ok (sys_of ready_host))). reflexivity.
Defined.



Lemma pipeline_swallows_exceptions_witness :
  is_Exception (ValueError "boom") = true ∧
  fst (pipeline fails_with_value_error None None false (sys_of ready_host))
    = Return PNone ∧
  reported (world (snd (pipeline fails_with_value_error None None false
                          (sys_of ready_host))))
    = [ValueError "boom"] ∧
  is_Exception (SystemExit 404) = false.
Proof.
  split; [reflexivity|].
  pose proof (proj1 (pipeline_swallows_exceptions fails_with_value_error
                       None None false (sys_of ready_host))
                (ValueError "boom") _ eq_refl eq_refl) as [Hnone Hrep].
  split; [exact Hnone|]. split; [exact Hrep|].
  apply (proj2 (pipeline_swallows_exceptions fetch_missing None None false
                  (sys_of ready_host))).
  reflexivity.
Defined.

(** The exception of a wrapped run that calls [get] on a missing address
    leaves [pipeline]: the caller gets [SystemExit], not [None]. *)
Lemma system_exit_leaves_pipeline :
  fst (wrapped_run fetch_missing None None false (sys_of ready_host))
    = Raise (SystemExit 404) ∧
  fst (pipeline fetch_missing None None false (sys_of ready_host))
    = Raise (SystemExit 404).
Proof. split; reflexivity. Qed.

Lemma pipeline_tears_down_witness :
  _session (host (snd (pipeline fails_with_value_error None None false
                         (sys_of ready_host)))) = None ∧
  (0%nat ∉ open_loops (world (snd (pipeline fails_with_value_error None None
                                     false (sys_of ready_host))))).
Proof.
  destruct (pipeline_tears_down fails_with_value_error None None false
              (sys_of ready_host)) with
    (s' := snd (pipeline fails_with_value_error None None false
                  (sys_of ready_host)))
    as (_ & Hloop & Hsess & _).
  - intros e s1 [= <- _]. reflexivity.
  - reflexivity.
  - split; [exact Hsess | exact Hloop].
Defined.

(** A batch interrupted from the keyboard: [pipeline] is left through the
    exception, the loop it created is still open and the session, closed
    by the batch, is still cached on the host. *)
Lemma interrupt_skips_the_teardown :
  fst (pipeline interrupted_batch None None false (sys_of ready_host))
    = Raise KeyboardInterrupt ∧
  elements (open_loops (world (snd (pipeline interrupted_batch None None false
                                      (sys_of ready_host))))) = [0%nat] ∧
  _session (host (snd (pipeline interrupted_batch None None false
                         (sys_of ready_host))))
    = Some {| sess_headers := ∅; closed := true |}.
Proof. repeat split; vm_compute; reflexivity. Qed.

Lemma pipeline_ignores_kwargs_witness :
  [PInt 1] ≠ [] ∧
  pipeline echo (Some [PInt 1]) (Some [("k", PInt 2)]) false (sys_of ready_host)
    = pipeline echo (Some [PInt 1]) None false (sys_of ready_host) ∧
  fst (pipeline echo (Some [PInt 1]) (Some [("k", PInt 2)]) false
         (sys_of ready_host))
    = Return (PList [PList [PList [PInt 1]]; PDict []]) ∧
  fst (pipeline echo None (Some [("k", PInt 2)]) false (sys_of ready_host))
    = Return (PList [PList []; PDict [("k", PInt 2)]]).
Proof.
  assert (Hne : [PInt 1] ≠ []) by discriminate.
  split; [exact Hne|]. split.
  - exact (proj1 (proj1 (pipeline_ignores_kwargs echo false (sys_of ready_host))
                    [PInt 1] (Some [("k", PInt 2)]) Hne)).
  - split; reflexivity.
Defined.

Lemma batch_results_follow_input_order_witness :
  (∃ rs s',
     process_gets b_unavailable [2; 0]%nat ["/A"; "/B"; "/C"] (sys_of ready_host)
       = (Return rs, s') ∧
     length rs = 3%nat ∧
     ∃ r, rs !! 1%nat = Some r ∧
          fst (async_get_body b_unavailable "/B" (dispatch (sys_of ready_host)))
            = Return r) ∧
  (∃ rs s',
     process_posts b_unavailable [1]%nat (UStr "/B") [PInt 1; PInt 2]
       (sys_of ready_host) = (Return rs, s') ∧
     length rs = 2%nat ∧
     ∃ r, rs !! 1%nat = Some r ∧
          fst (async_post_body b_unavailable (TStr "/B") (PInt 2)
                 (dispatch (sys_of ready_host))) = Return r) ∧
  (∃ rs s',
     process_posts b_unavailable [1]%nat (UList ["/A"; "/B"]) [PInt 1; PInt 2]
       (sys_of ready_host) = (Return rs, s') ∧
     length rs = 2%nat ∧
     ∃ r, rs !! 1%nat = Some r ∧
          fst (async_post_body b_unavailable (TStr "/B") (PInt 2)
                 (dispatch (sys_of ready_host))) = Return r).
Proof.
  pose proof (batch_results_follow_input_order b_unavailable [2; 0]%nat
                (sys_of ready_host)) as (Hgets & _ & _ & Htotal).
  pose proof (batch_results_follow_input_order b_unavailable [1]%nat
                (sys_of ready_host)) as (_ & Hstr & Hlist & Htotal1).
  destruct (Htotal fresh_session eq_refl (or_introl eq_refl)) as (Hg & _ & _).
  destruct (Htotal1 fresh_session eq_refl (or_introl eq_refl))
    as (_ & Hs & Hl).
  assert (Hlen : length ["/A"; "/B"] ≠ 1%nat) by (simpl; lia).
  split; [|split].
  - destruct (Hg ["/A"; "/B"; "/C"]) as (rs & s' & Hrun).
    { intros url Hin. apply list_elem_of_In in Hin. simpl in Hin.
      destruct Hin as [<- | [<- | [<- | []]]]; eexists; vm_compute; reflexivity. }
    exists rs, s'. split; [exact Hrun|].
    destruct (Hgets _ rs s' Hrun) as [Hlen3 Hnth].
    split; [exact Hlen3|]. exact (Hnth 1%nat "/B" eq_refl).
  - destruct (Hs "/B" [PInt 1; PInt 2]) as (rs & s' & Hrun).
    { intros p Hin. eexists. vm_compute. reflexivity. }
    exists rs, s'. split; [exact Hrun|].
    destruct (Hstr _ _ rs s' Hrun) as [Hlen2 Hnth].
    split; [exact Hlen2|]. exact (Hnth 1%nat (PInt 2) eq_refl).
  - destruct (Hl ["/A"; "/B"] [PInt 1; PInt 2] Hlen) as (rs & s' & Hrun).
    { intros i url p Hurl Hp. destruct i as [|[|i]]; simpl in *.
      - injection Hurl as <-. eexists. vm_compute. reflexivity.
      - injection Hurl as <-. eexists. vm_compute. reflexivity.
      - discriminate. }
    exists rs, s'. split; [exact Hrun|].
    destruct (Hlist _ _ rs s' Hlen Hrun) as [Hlen2 Hnth].
    split; [exact Hlen2|]. exact (Hnth 1%nat "/B" (PInt 2) eq_refl eq_refl).
Defined.

(** Three addresses and two payloads: the batch returns two results, and
    the third address gets none. *)
Lemma surplus_address_gets_no_result :
  ∃ rs s',
    process_posts always_ok [] (UList ["/a"; "/b"; "/c"]) [PInt 1; PInt 2]
      (sys_of ready_host) = (Return rs, s') ∧
    length rs = 2%nat ∧
    length rs ≠ length ["/a"; "/b"; "/c"] ∧
    rs !! 2%nat = None.
Proof.
  eexists _, _. split; [vm_compute; reflexivity|].
  repeat split. simpl. lia.
Qed.

(** One request with a malformed body, or one that times out, fails the
    whole batch. *)
Lemma malformed_body_fails_the_batch :
  fst (process_gets b_malformed [] ["/A"; "/B"; "/C"] (sys_of ready_host))
    = Raise JSONDecodeError ∧
  fst (process_gets b_timeout [] ["/A"; "/B"; "/C"] (sys_of ready_host))
    = Raise (TransportError "TimeoutError") ∧
  fst (process_posts b_malformed [] (UList ["/A"; "/B"]) [PInt 1; PInt 2]
         (sys_of ready_host))
    = Raise JSONDecodeError.
Proof. repeat split; vm_compute; reflexivity. Qed.

Lemma failed_status_degrades_witness :
  ∃ rs s',
    process_gets b_unavailable [2; 0]%nat ["/A"; "/B"; "/C"] (sys_of ready_host)
      = (Return rs, s') ∧
    length rs = 3%nat ∧
    rs !! 1%nat = Some (error_payload "Service Unavailable") ∧
    rs !! 2%nat = Some (PDict [("ok", PInt 1)]).
Proof.
  destruct (proj1 (failed_status_degrades b_unavailable [2; 0]%nat
                     (sys_of ready_host) fresh_session
                     eq_refl eq_refl (ex_intro _ (5, 60) eq_refl)
                     (or_introl eq_refl))
              ["/A"; "/B"; "/C"]) as (rs & s' & Hrun & Hlen & Hnth).
  - intros url Hin. apply list_elem_of_In in Hin. simpl in Hin.
    destruct Hin as [<- | [<- | [<- | []]]].
    + right. eexists. vm_compute. reflexivity.
    + left. exists unavailable_response. split; [reflexivity | discriminate].
    + right. eexists. vm_compute. reflexivity.
  - exists rs, s'. split; [exact Hrun|]. split; [exact Hlen|]. split.
    + apply (proj1 (Hnth 1%nat "/B" eq_refl) unavailable_response);
        [reflexivity | discriminate].
    + apply (proj2 (Hnth 2%nat "/C" eq_refl)). vm_compute. reflexivity.
Defined.

(** [process_posts(["/x"], [1, 2, 3])]: three calls, each addressed to the
    list [["/x"]]. *)
Example one_element_list_call_log :
  map address
    (log (world (snd (process_posts always_ok [] (UList ["/x"])
                        [PInt 1; PInt 2; PInt 3] (sys_of ready_host)))))
    = [TList ["/x"]; TList ["/x"]; TList ["/x"]].
Proof. vm_compute. reflexivity. Qed.

(** [process_posts("/x", [1, 2, 3])]: three calls, each addressed to
    ["/x"], carrying the payloads in order. *)
Example bare_string_call_log :
  map (λ c, (address c, sent_body c))
    (log (world (snd (process_posts always_ok [] (UStr "/x")
                        [PInt 1; PInt 2; PInt 3] (sys_of ready_host)))))
    = [(TStr "/x", Some (PInt 1)); (TStr "/x", Some (PInt 2));
       (TStr "/x", Some (PInt 3))].
Proof. vm_compute. reflexivity. Qed.

(** * Further properties of the code *)

Section Coverage.

Variable transport : call → reply.

(** ** get and post *)

Lemma call_limiter_passes {A} (func : M A) s :
  quota_allows (host s) → call_limiter func s = func s.
Proof.
  intros [Hrc | (z & Hrc & Hz)].
  - by apply call_limiter_unknown.
  - rewrite (call_limiter_int _ _ z Hrc).
    destruct (0 <? z) eqn:Hlt; [done | lia].
Qed.

Lemma get_undecorated_unfold url hs s :
  get_undecorated transport url hs s =
  let c := sync_wire GET url hs None in
  match transport c with
  | Fail name => (Raise (TransportError name), logged c s)
  | Resp r =>
      if error_status (status r)
      then (Raise (SystemExit (status r)), logged c s)
      else match check_call_limit r (logged c s) with
           | (Return _, s2) => json r s2
           | (Raise e, s2) => (Raise e, s2)
           end
  end.
Proof.
  unfold get_undecorated, requests_call, logged, error_status.
  unfold bind at 1. unfold try_except. unfold bind at 1. unfold bind at 1.
  unfold record_call at 1, modify_world at 1. simpl.
  fold (sync_wire GET url hs None).
  destruct (transport (sync_wire GET url hs None)) as [r|name]; simpl; [|done].
  unfold bind at 1. unfold raise_for_status.
  destruct ((400 <=? status r) && (status r <? 600)); simpl; [done|].
  unfold bind. by destruct (check_call_limit r _) as [[[]|e] s2].
Qed.

Lemma post_undecorated_unfold url data s :
  post_undecorated transport url data s =
  if serializable data then
    match headers (host s) with
    | None => (Raise (AttributeError "headers"), s)
    | Some hd =>
        let c := sync_wire POST url hd (Some data) in
        match transport c with
        | Fail name => (Raise (TransportError name), logged c s)
        | Resp r =>
            if error_status (status r)
            then match body r with
                 | Some _ => (Raise (SystemExit (status r)), logged c s)
                 | None => (Raise JSONDecodeError, logged c s)
                 end
            else match check_call_limit r (logged c s) with
                 | (Return _, s2) => json r s2
                 | (Raise e, s2) => (Raise e, s2)
                 end
        end
    end
  else (Raise (TypeError "Object of type set is not JSON serializable"), s).
Proof.
  unfold post_undecorated, json_dumps, requests_call, logged, error_status.
  unfold bind at 1.
  destruct (serializable data); simpl; [|done].
  unfold bind at 1. unfold getattr, bind at 1, get_self. simpl.
  destruct (headers (host s)) as [hd|]; simpl; [|done].
  unfold bind at 1. unfold bind at 1.
  unfold record_call at 1, modify_world at 1. simpl.
  fold (sync_wire POST url hd (Some data)).
  destruct (transport (sync_wire POST url hd (Some data))) as [r|name];
    simpl; [|done].
  unfold bind at 1. unfold try_except, raise_for_status.
  destruct ((400 <=? status r) && (status r <? 600)); simpl.
  - unfold bind, json, raise, ret. by destruct (body r).
  - unfold bind. by destruct (check_call_limit r _) as [[[]|e] s2].
Qed.

Lemma logged_host c s : host (logged c s) = host s.
Proof. reflexivity. Qed.

Lemma logged_log c s : log (world (logged c s)) = (log (world s) ++ [c])%list.
Proof. reflexivity. Qed.

(** X1. When the guard lets [get] through and the transport fails or
    answers with a 4xx/5xx status, [get] raises ([SystemExit] carrying the
    status, or the transport's error), the request has been sent exactly
    once with the headers passed as argument, and the host object -
    quota counters included - is exactly as before. *)
Theorem get_failure_leaves_host url hs s :
  quota_allows (host s) →
  (∀ r, transport (sync_wire GET url hs None) = Resp r →
        error_status (status r) = true →
        get transport url hs s
          = (Raise (SystemExit (status r)), logged (sync_wire GET url hs None) s)) ∧
  (∀ name, transport (sync_wire GET url hs None) = Fail name →
        get transport url hs s
          = (Raise (TransportError name), logged (sync_wire GET url hs None) s)) ∧
  host (logged (sync_wire GET url hs None) s) = host s ∧
  log (world (logged (sync_wire GET url hs None) s))
    = (log (world s) ++ [sync_wire GET url hs None])%list.
Proof.
  intros Hq. unfold get. rewrite (call_limiter_passes _ _ Hq).
  rewrite get_undecorated_unfold. simpl.
  split; [|split; [|split; reflexivity]].
  - intros r -> ->. done.
  - intros name ->. done.
Qed.

(** X2. When the guard lets [post] through with a payload [json.dumps]
    can encode and the response has a 4xx/5xx status, [post] raises
    [SystemExit] only if the error body decodes as JSON; if it does not,
    the decoding error of the handler's own [resp.json()] is what the
    caller gets.  Either way the host is untouched and one call has been
    sent with [self.headers]. *)
Theorem post_error_status url data s hd r :
  quota_allows (host s) →
  serializable data = true →
  headers (host s) = Some hd →
  transport (sync_wire POST url hd (Some data)) = Resp r →
  error_status (status r) = true →
  post transport url data s
    = (Raise (match body r with
              | Some _ => SystemExit (status r)
              | None => JSONDecodeError
              end),
       logged (sync_wire POST url hd (Some data)) s).
Proof.
  intros Hq Hser Hhd Hr Hst. unfold post. rewrite (call_limiter_passes _ _ Hq).
  rewrite post_undecorated_unfold, Hser, Hhd. simpl. rewrite Hr, Hst.
  by destruct (body r).
Qed.

(** What [check_call_limit] never touches, whatever its outcome. *)
Lemma check_call_limit_frame resp s :
  world (snd (check_call_limit resp s)) = world s ∧
  headers (host (snd (check_call_limit resp s))) = headers (host s) ∧
  conn (host (snd (check_call_limit resp s))) = conn (host s) ∧
  same_setup (host s) (host (snd (check_call_limit resp s))).
Proof.
  split; [|split; [|split]].
  - rewrite check_call_limit_unfold. unfold put_host. simpl.
    repeat case_match; done.
  - rewrite check_call_limit_unfold. unfold put_host, store_counters. simpl.
    repeat case_match; done.
  - rewrite check_call_limit_unfold. unfold put_host, store_counters. simpl.
    repeat case_match; done.
  - apply (check_call_limit_steady resp s s), same_setup_refl.
Qed.

(** Whatever [get] does after the guard, it has sent exactly one call. *)
Lemma get_undecorated_log url hs s :
  log (world (snd (get_undecorated transport url hs s)))
    = (log (world s) ++ [sync_wire GET url hs None])%list.
Proof.
  rewrite get_undecorated_unfold. simpl.
  destruct (transport _) as [r|name]; simpl; [|done].
  destruct (error_status (status r)); simpl; [done|].
  pose proof (check_call_limit_frame r (logged (sync_wire GET url hs None) s))
    as [Hw _].
  destruct (check_call_limit r _) as [[[]|e] s2]; simpl in *.
  - unfold json. destruct (body r); simpl; by rewrite Hw.
  - by rewrite Hw.
Qed.

(** X3. [post] encodes its payload and then reads [self.headers] before it
    sends anything: a payload [json.dumps] cannot encode raises
    [TypeError], and otherwise a host without the [headers] attribute
    raises [AttributeError]; in both cases no transport call is made and
    the state is unchanged.  [get], which takes its headers as an
    argument, sends its request all the same. *)
Theorem post_needs_headers s :
  quota_allows (host s) →
  headers (host s) = None →
  (∀ url data, serializable data = true →
     post transport url data s = (Raise (AttributeError "headers"), s)) ∧
  (∀ url data, serializable data = false →
     post transport url data s
       = (Raise (TypeError "Object of type set is not JSON serializable"), s)) ∧
  (∀ url hs,
     log (world (snd (get transport url hs s)))
       = (log (world s) ++ [sync_wire GET url hs None])%list).
Proof.
  intros Hq Hhd. split; [|split].
  - intros url data Hser. unfold post. rewrite (call_limiter_passes _ _ Hq).
    by rewrite post_undecorated_unfold, Hser, Hhd.
  - intros url data Hser. unfold post. rewrite (call_limiter_passes _ _ Hq).
    by rewrite post_undecorated_unfold, Hser.
  - intros url hs. unfold get. rewrite (call_limiter_passes _ _ Hq).
    apply get_undecorated_log.
Qed.

(** ** The quota tracker, continued *)

Ltac reuse_tests :=
  repeat match goal with
    | H : truthy ?v = _ |- context [truthy ?v] => rewrite H
    | H : py_sub ?a ?b = _ |- context [py_sub ?a ?b] => rewrite H
    end.

Ltac settle_tests :=
  repeat (simpl; reuse_tests; try done;
          match goal with
          | |- context [truthy ?v] => destruct (truthy v) eqn:?
          | |- context [py_sub ?a ?b] => destruct (py_sub a b) eqn:?
          end).

(** X4. [check_call_limit] is idempotent: applying it twice to the same
    response gives the outcome and the host of applying it once.  And it
    never touches anything but the three counters: the log, [headers],
    the session, the rate limiter, the connector and the configured
    header names are as before, whether it returns or raises. *)
Theorem check_call_limit_idempotent resp s :
  check_call_limit resp (snd (check_call_limit resp s))
    = check_call_limit resp s ∧
  world (snd (check_call_limit resp s)) = world s ∧
  headers (host (snd (check_call_limit resp s))) = headers (host s) ∧
  _session (host (snd (check_call_limit resp s))) = _session (host s) ∧
  throttler (host (snd (check_call_limit resp s))) = throttler (host s) ∧
  conn (host (snd (check_call_limit resp s))) = conn (host s) ∧
  call_count_key (host (snd (check_call_limit resp s)))
    = call_count_key (host s) ∧
  call_count_limit_key (host (snd (check_call_limit resp s)))
    = call_count_limit_key (host s) ∧
  call_limit_remaining_key (host (snd (check_call_limit resp s)))
    = call_limit_remaining_key (host s).
Proof.
  split.
  - rewrite !check_call_limit_unfold.
    destruct s as [h w]. destruct h as [hd ss th cn ck lk rk cc cl rc].
    unfold store_counters, put_host. simpl.
    destruct rk as [rk|], ck as [ck|], lk as [lk|]; simpl; try done.
    2-4: destruct cc as [x|]; simpl; [|done]; destruct cl as [y|].
    all: settle_tests.
  - destruct (check_call_limit_frame resp s)
      as (Hw & Hh & Hc & Hs & Ht & Hk1 & Hk2 & Hk3 & _).
    repeat split; done.
Qed.

(** X5. Without a remaining-key and without both counter keys,
    [check_call_limit] reads [self.call_counts]: on a host that never
    assigned it the update raises [AttributeError], so a [get] whose
    request succeeded raises after the request has been sent. *)
Theorem unconfigured_host_needs_counters s :
  call_limit_remaining_key (host s) = None →
  call_count_key (host s) = None ∨ call_count_limit_key (host s) = None →
  call_counts (host s) = None →
  (∀ resp, check_call_limit resp s = (Raise (AttributeError "call_counts"), s)) ∧
  (∀ url hs r,
     quota_allows (host s) →
     transport (sync_wire GET url hs None) = Resp r →
     error_status (status r) = false →
     get transport url hs s
       = (Raise (AttributeError "call_counts"),
          logged (sync_wire GET url hs None) s)).
Proof.
  intros Hrk Hkeys Hcc.
  assert (Hccl : ∀ resp w,
            check_call_limit resp {| host := host s; world := w |}
              = (Raise (AttributeError "call_counts"),
                 {| host := host s; world := w |})).
  { intros resp w. rewrite check_call_limit_unfold.
    unfold store_counters, put_host. simpl. rewrite Hrk.
    destruct Hkeys as [-> | Hlk].
    - by rewrite Hcc.
    - rewrite Hlk. destruct (call_count_key (host s)); by rewrite Hcc. }
  split.
  - intros resp. destruct s as [h w]. apply Hccl.
  - intros url hs r Hq Hr Hst. unfold get.
    rewrite (call_limiter_passes _ _ Hq), get_undecorated_unfold. simpl.
    rewrite Hr, Hst. unfold logged, record_call, modify_world, on_world. simpl.
    by rewrite Hccl.
Qed.

(** X6. What [get] reads from the remaining-header governs the next
    guarded call, whether or not the body of the response decodes: an
    integer that is not positive makes the next call fail with
    [ValueError] before any transport call, a missing header (counter 1)
    lets it through, and a header kept as a string makes the comparison
    of the guard raise [TypeError]. *)
Theorem observed_quota_governs_next_call url hs s rk r :
  quota_allows (host s) →
  call_limit_remaining_key (host s) = Some rk →
  transport (sync_wire GET url hs None) = Resp r →
  error_status (status r) = false →
  ∀ s', s' = snd (get transport url hs s) →
  remaining_calls (host s') = Some (default (SInt 1) (resp_headers r !! rk)) ∧
  (∀ z, resp_headers r !! rk = Some (SInt z) → z ≤ 0 →
     ∀ url' hs', get transport url' hs' s' = (Raise no_calls_left, s')) ∧
  (resp_headers r !! rk = None → quota_allows (host s')) ∧
  (∀ txt, resp_headers r !! rk = Some (SStr txt) →
     ∀ url' hs', ∃ msg, get transport url' hs' s' = (Raise (TypeError msg), s')).
Proof.
  intros Hq Hrk Hr Hst s' ->.
  assert (Hrc : remaining_calls (host (snd (get transport url hs s)))
                = Some (default (SInt 1) (resp_headers r !! rk))).
  { unfold get. rewrite (call_limiter_passes _ _ Hq), get_undecorated_unfold.
    simpl. rewrite Hr, Hst.
    destruct (check_call_limit_remaining r
                (logged (sync_wire GET url hs None) s) rk Hrk) as [Hfst Hrem].
    destruct (check_call_limit r _) as [[[]|e] s2]; simpl in *; [|discriminate].
    unfold headers_get in Hrem.
    unfold json. destruct (body r); simpl; rewrite Hrem;
      by destruct (resp_headers r !! rk). }
  split; [exact Hrc|]. split; [|split].
  - intros z Hz Hle url' hs'. rewrite Hz in Hrc. simpl in Hrc.
    unfold get at 1. rewrite (call_limiter_int _ _ z Hrc).
    destruct (0 <? z) eqn:Hlt; [lia | done].
  - intros Hnone. rewrite Hnone in Hrc. simpl in Hrc.
    right. exists 1. split; [done | lia].
  - intros txt Htxt url' hs'. rewrite Htxt in Hrc. simpl in Hrc.
    unfold get at 1. by apply call_limiter_str with (txt := txt).
Qed.

(** ** session and reset *)


(** X8. [reset] never fails and is idempotent, and after it the next read
    of [self.session] builds a session anew from [self.headers]: open,
    even if the session cached before was closed. *)
Theorem reset_renews_session s :
  fst (reset s) = Return tt ∧
  reset (snd (reset s)) = (Return tt, snd (reset s)) ∧
  _session (host (snd (reset s))) = None ∧
  (∀ hd, headers (host s) = Some hd →
     session (snd (reset s))
       = (Return {| sess_headers := hd; closed := false |},
          on_host (with_session_attr
                     (Some {| sess_headers := hd; closed := false |})) s)).
Proof.
  destruct s as [h w]. destruct h as [hd0 ss th cn ck lk rk cc cl rc].
  unfold reset, session, getattr, bind, get_self, modify_self, ret, on_host.
  simpl. destruct ss as [ss|]; simpl.
  - repeat split; try done. by intros hd ->.
  - repeat split; try done. by intros hd ->.
Qed.

(** ** One asynchronous request *)

(** X9. A response whose status is not 200 is never used to update the
    quota: [async_get] and [async_post] return the error payload and
    leave the host exactly as it was, whatever the headers of that
    response say; the only trace is the call in the log. *)
Theorem failed_response_skips_quota_update s ss r :
  _session (host s) = Some ss →
  closed ss = false →
  is_Some (throttler (host s)) →
  status r ≠ 200 →
  (∀ url, transport (wire ss GET (TStr url) None) = Resp r →
     async_get_body transport url s
       = (Return (error_payload (reason r)),
          logged (wire ss GET (TStr url) None) s)) ∧
  (∀ url payload, transport (wire ss POST url (Some payload)) = Resp r →
     async_post_body transport url payload s
       = (Return (error_payload (reason r)),
          logged (wire ss POST url (Some payload)) s)).
Proof.
  intros Hss Hopen [th Hth] Hst.
  assert (Hgen : ∀ v url payload,
            transport (wire ss v url payload) = Resp r →
            exchange transport v url payload s
              = (Return (error_payload (reason r)),
                 logged (wire ss v url payload) s)).
  { intros v url payload Hr.
    rewrite (exchange_unfold _ _ _ _ s ss Hss), Hth, Hopen. simpl. rewrite Hr.
    destruct (status r =? 200) eqn:Heq; [lia | done]. }
  split.
  - intros url. apply (Hgen GET (TStr url) None).
  - intros url payload. apply (Hgen POST url (Some payload)).
Qed.

(** ** Batches at their edges *)

Lemma run_tasks_nil order (done : gmap nat pyval) s :
  run_tasks [] order done s = (Return done, s).
Proof. induction order as [|i rest IH]; simpl; [done|]. exact IH. Qed.

Lemma gather_nil order s : gather order [] s = (Return [], s).
Proof. unfold gather, bind. by rewrite run_tasks_nil. Qed.

Lemma run_tasks_first_raise (tasks : list (M pyval)) e s :
  (∀ t, t ∈ tasks → t s = (Raise e, s)) →
  ∀ order, (∃ i, i ∈ order ∧ (i < length tasks)%nat) →
  run_tasks tasks order ∅ s = (Raise e, s).
Proof.
  intros Hall. induction order as [|i rest IH]; intros (j & Hj & Hlt).
  - by apply elem_of_nil in Hj.
  - simpl. destruct (tasks !! i) as [t|] eqn:Ht.
    + rewrite lookup_empty. unfold bind.
      by rewrite (Hall t (list_elem_of_lookup_2 _ _ _ Ht)).
    + apply IH. exists j. split; [|done].
      apply elem_of_cons in Hj as [-> | Hj]; [|done].
      apply lookup_ge_None in Ht. lia.
Qed.

Lemma gather_all_raise (tasks : list (M pyval)) order e s :
  tasks ≠ [] →
  (∀ t, t ∈ tasks → t s = (Raise e, s)) →
  gather order tasks s = (Raise e, s).
Proof.
  intros Hne Hall. unfold gather, bind.
  rewrite (run_tasks_first_raise tasks e s Hall); [done|].
  exists 0%nat. split.
  - apply elem_of_app. right. apply elem_of_seq.
    destruct tasks; [done | simpl; lia].
  - destruct tasks; [done | simpl; lia].
Qed.

Lemma spawn_all_blocked {D} (body : D → M pyval) descs e s :
  descs ≠ [] →
  (∀ x : M pyval, call_limiter (ret x) s = (Raise e, s)) →
  spawn_all (λ d, call_limiter (ret (body d))) descs s = (Raise e, s).
Proof.
  intros Hne Hblock. destruct descs as [|d descs]; [done|]. simpl.
  unfold bind at 1. by rewrite Hblock.
Qed.

Lemma batch_unfold {D} (body : D → M pyval) order descs s :
  batch body order descs s =
  match session s with
  | (Return _, s1) =>
      match spawn_all (λ d, call_limiter (ret (body d))) descs s1 with
      | (Return ts, s2) =>
          (fst (gather order ts s2), close_session (snd (gather order ts s2)))
      | (Raise e, s2) => (Raise e, close_session s2)
      end
  | (Raise e, s1) => (Raise e, s1)
  end.
Proof.
  unfold batch, with_session. unfold bind at 1.
  destruct (session s) as [[ss|e] s1]; [|done].
  unfold bind. destruct (spawn_all _ descs s1) as [[ts|e] s2]; [|done].
  by destruct (gather order ts s2).
Qed.

Lemma dispatch_world s : world (dispatch s) = world s.
Proof.
  unfold dispatch, session, getattr, bind, get_self, modify_self, ret, raise.
  simpl. destruct (_session (host s)); [done|].
  by destruct (headers (host s)).
Qed.

Lemma close_session_world s : world (close_session s) = world s.
Proof. reflexivity. Qed.

Lemma close_session_closed s ss :
  _session (host s) = Some ss → closed ss = true → close_session s = s.
Proof.
  destruct s as [h w]. destruct h as [hd ss0 th cn ck lk rk cc cl rc].
  simpl. intros -> Hc. destruct ss as [sh c]. simpl in *. subst c.
  reflexivity.
Qed.

(** A batch all of whose requests raise the same error without touching
    the state raises that error, having changed nothing but the session's
    being closed. *)
Lemma batch_all_raise {D} (body : D → M pyval) order descs s ss s1 e :
  session s = (Return ss, s1) →
  quota_allows (host s) →
  descs ≠ [] →
  (∀ d, d ∈ descs → body d s1 = (Raise e, s1)) →
  batch body order descs s = (Raise e, close_session s1).
Proof.
  intros Hsess Hq Hne Hall.
  destruct (session_returns _ _ _ Hsess) as (Hss & Hrc & _).
  assert (Hq1 : quota_allows (host s1)).
  { unfold quota_allows in *. by rewrite Hrc. }
  rewrite batch_unfold, Hsess.
  rewrite (spawn_all_allowed body descs s1 Hq1).
  rewrite (gather_all_raise (body <$> descs) order e s1); [done | |].
  - destruct descs; [done | discriminate].
  - intros t (d & -> & Hd)%list_elem_of_fmap. by apply Hall.
Qed.

(** X10. An empty batch returns the empty list without consulting the
    quota guard and without any transport call - so also on a host whose
    quota is exhausted or was never assigned.  The same holds for
    [process_posts] with no payloads, and with an empty list of addresses,
    in which case the payloads are dropped. *)
Theorem empty_batch order s ss :
  fst (session s) = Return ss →
  process_gets transport order [] s = (Return [], close_session (dispatch s)) ∧
  (∀ urls,
     process_posts transport order urls [] s
       = (Return [], close_session (dispatch s))) ∧
  (∀ payloads,
     process_posts transport order (UList []) payloads s
       = (Return [], close_session (dispatch s))) ∧
  log (world (close_session (dispatch s))) = log (world s).
Proof.
  intros Hsess%session_dispatch.
  assert (Hempty : ∀ D (body : D → M pyval),
            batch body order [] s = (Return [], close_session (dispatch s))).
  { intros D body. rewrite batch_unfold, Hsess. simpl. unfold ret.
    by rewrite gather_nil. }
  split; [|split; [|split]].
  - rewrite process_gets_batch. apply Hempty.
  - intros urls. rewrite process_posts_batch.
    replace (zip (replicate_urls urls []) []) with (@nil (target * pyval)).
    + apply Hempty.
    + by destruct (replicate_urls urls []).
  - intros payloads. rewrite process_posts_batch. apply Hempty.
  - by rewrite close_session_world, dispatch_world.
Qed.

(** X11. With an exhausted quota a batch of at least one request fails as
    a whole while its tasks are being created: [ValueError] leaves
    [process_gets] / [process_posts], no transport call is made, and the
    session is left closed.  The guard's error is not degraded to a
    per-request payload. *)
Theorem exhausted_quota_fails_batch order s ss z :
  fst (session s) = Return ss →
  remaining_calls (host s) = Some (SInt z) →
  z ≤ 0 →
  (∀ urls, urls ≠ [] →
     process_gets transport order urls s
       = (Raise no_calls_left, close_session (dispatch s))) ∧
  (∀ urls payloads,
     zip (replicate_urls urls payloads) payloads ≠ [] →
     process_posts transport order urls payloads s
       = (Raise no_calls_left, close_session (dispatch s))) ∧
  log (world (close_session (dispatch s))) = log (world s).
Proof.
  intros Hsess%session_dispatch Hrc Hz.
  destruct (session_returns _ _ _ Hsess) as (_ & Hrc1 & _).
  rewrite <- Hrc1 in Hrc.
  assert (Hblock : ∀ x : M pyval,
            call_limiter (ret x) (dispatch s) = (Raise no_calls_left, dispatch s)).
  { intros x. rewrite (call_limiter_int _ _ z Hrc).
    destruct (0 <? z) eqn:Hlt; [lia | done]. }
  assert (Hgen : ∀ D (body : D → M pyval) descs, descs ≠ [] →
            batch body order descs s
              = (Raise no_calls_left, close_session (dispatch s))).
  { intros D body descs Hne. rewrite batch_unfold, Hsess.
    by rewrite (spawn_all_blocked body descs no_calls_left _ Hne Hblock). }
  split; [|split].
  - intros urls Hne. rewrite process_gets_batch. by apply Hgen.
  - intros urls payloads Hne. rewrite process_posts_batch. by apply Hgen.
  - by rewrite close_session_world, dispatch_world.
Qed.

(** X12. The asynchronous requests need [set_rate_limit] to have been
    called: on a host without a rate limiter a batch of at least one
    request raises [AttributeError] for [throttler] before any transport
    call; [set_rate_limit] assigns exactly that attribute.  The
    synchronous [get] and [post] never read it. *)
Theorem batch_needs_rate_limit order s ss :
  fst (session s) = Return ss →
  quota_allows (host s) →
  throttler (host s) = None →
  (∀ urls, urls ≠ [] →
     process_gets transport order urls s
       = (Raise (AttributeError "throttler"), close_session (dispatch s))) ∧
  (∀ urls payloads,
     zip (replicate_urls urls payloads) payloads ≠ [] →
     process_posts transport order urls payloads s
       = (Raise (AttributeError "throttler"), close_session (dispatch s))) ∧
  log (world (close_session (dispatch s))) = log (world s) ∧
  (∀ n p, throttler (host (snd (set_rate_limit n p s))) = Some (n, p)).
Proof.
  intros Hsess%session_dispatch Hq Hth.
  destruct (session_returns _ _ _ Hsess) as (Hss & _ & Hth1).
  rewrite <- Hth1 in Hth.
  assert (Hraise : ∀ v url payload,
            exchange transport v url payload (dispatch s)
              = (Raise (AttributeError "throttler"), dispatch s)).
  { intros. by rewrite (exchange_unfold _ _ _ _ _ ss Hss), Hth. }
  split; [|split; [|split]].
  - intros urls Hne. rewrite process_gets_batch.
    apply (batch_all_raise _ _ _ _ ss _ _ Hsess Hq Hne).
    intros url _. apply (Hraise GET (TStr url) None).
  - intros urls payloads Hne. rewrite process_posts_batch.
    apply (batch_all_raise _ _ _ _ ss _ _ Hsess Hq Hne).
    intros [url payload] _. apply (Hraise POST url (Some payload)).
  - by rewrite close_session_world, dispatch_world.
  - done.
Qed.

(** A batch that returns leaves its session cached and closed. *)
Lemma batch_leaves_session_closed {D} (body : D → M pyval)
    (request : D → verb * target * option pyval) order descs s rs s' :
  (∀ d, body d = exchange transport (request d).1.1 (request d).1.2 (request d).2) →
  batch body order descs s = (Return rs, s') →
  ∃ ss, _session (host s') = Some ss ∧ closed ss = true.
Proof.
  intros Hbody. rewrite batch_unfold.
  destruct (session s) as [[ss|e] s1] eqn:Hsess; [|discriminate].
  destruct (spawn_all _ descs s1) as [[ts|e] s2] eqn:Hsp; [|discriminate].
  apply (spawn_all_returns body) in Hsp as [-> ->].
  destruct (session_returns _ _ _ Hsess) as (Hss & _ & _).
  pose proof (gather_spec _ _ _
                (bodies_steady transport body request Hbody descs s1
                   (ex_intro _ ss Hss))
                order s1 (same_setup_refl _)) as Hg.
  destruct (gather order (body <$> descs) s1) as [[rs'|e] s3]; simpl;
    [|discriminate].
  destruct Hg as [(Hsame & _) _]. intros [= <- <-].
  unfold close_session, on_host. simpl. rewrite Hsame, Hss. simpl. eauto.
Qed.

(** X13. A batch closes the session but leaves it cached: after a
    [process_gets] or [process_posts] that returned, the host holds a
    closed session, and a following non-empty batch on the same host -
    nothing having called [reset] - raises [RuntimeError] for the closed
    session without any transport call and without changing the state. *)
Theorem closed_session_fails_next_batch order s :
  (∀ urls rs s',
     process_gets transport order urls s = (Return rs, s') →
     ∃ ss, _session (host s') = Some ss ∧ closed ss = true) ∧
  (∀ urls payloads rs s',
     process_posts transport order urls payloads s = (Return rs, s') →
     ∃ ss, _session (host s') = Some ss ∧ closed ss = true) ∧
  (∀ ss, _session (host s) = Some ss → closed ss = true →
     quota_allows (host s) → is_Some (throttler (host s)) →
     (∀ urls, urls ≠ [] →
        process_gets transport order urls s
          = (Raise (RuntimeError "Session is closed"), s)) ∧
     (∀ urls payloads,
        zip (replicate_urls urls payloads) payloads ≠ [] →
        process_posts transport order urls payloads s
          = (Raise (RuntimeError "Session is closed"), s))).
Proof.
  split; [|split].
  - intros urls rs s' Hrun. rewrite process_gets_batch in Hrun.
    exact (batch_leaves_session_closed (async_get_body transport)
             (λ url, (GET, TStr url, None)) _ _ _ _ _ (λ d, eq_refl) Hrun).
  - intros urls payloads rs s' Hrun. rewrite process_posts_batch in Hrun.
    exact (batch_leaves_session_closed (λ d, async_post_body transport d.1 d.2)
             (λ d, (POST, d.1, Some d.2)) _ _ _ _ _ (λ d, eq_refl) Hrun).
  - intros ss Hss Hclosed Hq [th Hth].
    pose proof (session_cached s ss Hss) as Hsess.
    assert (Hraise : ∀ v url payload,
              exchange transport v url payload s
                = (Raise (RuntimeError "Session is closed"), s)).
    { intros. by rewrite (exchange_unfold _ _ _ _ _ ss Hss), Hth, Hclosed. }
    split.
    + intros urls Hne. rewrite process_gets_batch.
      rewrite (batch_all_raise _ order urls s ss s
                 (RuntimeError "Session is closed") Hsess Hq Hne).
      * by rewrite (close_session_closed s ss).
      * intros url _. apply (Hraise GET (TStr url) None).
    + intros urls payloads Hne. rewrite process_posts_batch.
      rewrite (batch_all_raise _ order _ s ss s
                 (RuntimeError "Session is closed") Hsess Hq Hne).
      * by rewrite (close_session_closed s ss).
      * intros [url payload] _. apply (Hraise POST url (Some payload)).
Qed.

(** X14. Given a list of addresses that is not a singleton,
    [process_posts] pairs addresses and payloads position by position and
    silently drops what is left over on the longer side: a batch that
    returns has as many results as the shorter of the two lists. *)
Theorem process_posts_truncates order l payloads s rs s' :
  length l ≠ 1%nat →
  process_posts transport order (UList l) payloads s = (Return rs, s') →
  length rs = (length l `min` length payloads)%nat.
Proof.
  intros Hlen Hrun. rewrite process_posts_batch in Hrun.
  destruct (batch_returns transport (λ d, async_post_body transport d.1 d.2)
              (λ d, (POST, d.1, Some d.2)) (λ d, eq_refl)
              _ _ _ _ _ Hrun) as [-> _].
  unfold replicate_urls.
  destruct (length l =? 1)%nat eqn:Heq; [apply Nat.eqb_eq in Heq; lia|].
  by rewrite length_zip_with, length_fmap.
Qed.

(** ** The calls a batch makes *)

Lemma run_tasks_mono (tasks : list (M pyval)) order :
  ∀ (done : gmap nat pyval) s done' s',
    run_tasks tasks order done s = (Return done', s') →
    (∀ i, is_Some (done !! i) → is_Some (done' !! i)) ∧
    (∀ i, i ∈ order → (i < length tasks)%nat → is_Some (done' !! i)) ∧
    (∀ i, is_Some (done' !! i) →
          is_Some (done !! i) ∨ (i < length tasks)%nat).
Proof.
  induction order as [|i rest IH]; intros done s done' s'; simpl.
  - intros [= <- <-]. split; [done|]. split; [|by left].
    intros i Hi. by apply elem_of_nil in Hi.
  - destruct (tasks !! i) as [t|] eqn:Ht.
    + destruct (done !! i) as [r0|] eqn:Hd.
      * intros Hrun. destruct (IH _ _ _ _ Hrun) as (Hmono & Hin & Hdom).
        split; [done|]. split; [|done].
        intros j [->|Hj]%elem_of_cons Hlt; [|by apply Hin].
        apply Hmono. by rewrite Hd.
      * unfold bind. destruct (t s) as [[r|e] s1]; [|discriminate].
        intros Hrun. destruct (IH _ _ _ _ Hrun) as (Hmono & Hin & Hdom).
        split; [|split].
        -- intros j Hj. apply Hmono.
           destruct (decide (i = j)) as [->|Hne].
           ++ rewrite lookup_insert_eq. eauto.
           ++ by rewrite lookup_insert_ne.
        -- intros j [->|Hj]%elem_of_cons Hlt; [|by apply Hin].
           apply Hmono. rewrite lookup_insert_eq. eauto.
        -- intros j Hj. destruct (Hdom j Hj) as [Hins | Hlt]; [|by right].
           destruct (decide (i = j)) as [<-|Hne].
           ++ right. by eapply lookup_lt_Some.
           ++ left. by rewrite lookup_insert_ne in Hins.
    + intros Hrun.
      assert (Hrun' : run_tasks tasks rest done s = (Return done', s'))
        by by destruct (done !! i).
      destruct (IH _ _ _ _ Hrun') as (Hmono & Hin & Hdom).
      split; [done|]. split; [|done].
      intros j [->|Hj]%elem_of_cons Hlt; [|by apply Hin].
      apply lookup_ge_None in Ht. lia.
Qed.

Section Calls.

Variable R : Sys → Prop.
Variable tasks : list (M pyval).
Variable calls : list call.
Hypothesis tasks_send : Forall2 (sends R) tasks calls.

Lemma run_tasks_log order :
  ∀ (done : gmap nat pyval) s done' s',
    R s →
    run_tasks tasks order done s = (Return done', s') →
    ∃ idx,
      log (world s') = (log (world s) ++ omap (λ i, calls !! i) idx)%list ∧
      NoDup idx ∧
      ∀ i, i ∈ idx ↔ done !! i = None ∧ is_Some (done' !! i).
Proof.
  induction order as [|i rest IH]; intros done s done' s' HR; simpl.
  - intros [= <- <-]. exists []. simpl. rewrite app_nil_r.
    split; [done|]. split; [constructor|].
    intros i. split.
    + intros Hi. by apply elem_of_nil in Hi.
    + intros [Hn [r Hr]]. congruence.
  - destruct (tasks !! i) as [t|] eqn:Ht.
    + destruct (done !! i) as [r0|] eqn:Hd.
      * intros Hrun. exact (IH _ _ _ _ HR Hrun).
      * unfold bind.
        destruct (Forall2_lookup_l _ _ _ _ _ tasks_send Ht) as (c & Hc & Hsend).
        destruct (Hsend s HR) as [HR1 Hlog1].
        destruct (t s) as [[r|e] s1]; [|discriminate]. simpl in *.
        intros Hrun.
        destruct (IH _ _ _ _ HR1 Hrun) as (idx & Hlog & Hnd & Hidx).
        destruct (run_tasks_mono _ _ _ _ _ _ Hrun) as [Hmono _].
        exists (i :: idx). split; [|split].
        -- simpl. rewrite Hc, Hlog, Hlog1. by rewrite <- app_assoc.
        -- constructor; [|done]. intros Hin. apply Hidx in Hin as [Hn _].
           by rewrite lookup_insert_eq in Hn.
        -- intros j. rewrite elem_of_cons, Hidx.
           destruct (decide (i = j)) as [<-|Hne].
           ++ rewrite lookup_insert_eq. split.
              ** intros _. split; [done|]. apply Hmono.
                 rewrite lookup_insert_eq. eauto.
              ** intros _. by left.
           ++ rewrite lookup_insert_ne by done. split.
              ** intros [Heq | H]; [congruence | done].
              ** intros H. by right.
    + intros Hrun.
      assert (Hrun' : run_tasks tasks rest done s = (Return done', s'))
        by by destruct (done !! i).
      exact (IH _ _ _ _ HR Hrun').
Qed.

Lemma all_calls :
  omap (λ i, calls !! i) (seq 0 (length calls)) = calls.
Proof.
  assert (Hgen : ∀ (pre l : list call),
            omap (λ i, (pre ++ l)%list !! i) (seq (length pre) (length l)) = l).
  { intros pre l. revert pre. induction l as [|c l IH]; intros pre; [done|].
    simpl. rewrite list_lookup_middle by done. f_equal.
    specialize (IH (pre ++ [c])%list).
    rewrite length_app, <- app_assoc in IH. simpl in IH.
    by rewrite Nat.add_1_r in IH. }
  exact (Hgen [] calls).
Qed.

(** When the join returns, the log has grown by the calls of the tasks,
    each exactly once, in the order the tasks completed. *)
Lemma gather_log order s rs s' :
  R s →
  gather order tasks s = (Return rs, s') →
  log (world s') ≡ₚ (log (world s) ++ calls)%list.
Proof.
  intros HR. unfold gather, bind.
  destruct (run_tasks tasks _ ∅ s) as [[done|e] s1] eqn:Hrun; [|discriminate].
  intros [= <- <-].
  destruct (run_tasks_log _ _ _ _ _ HR Hrun) as (idx & Hlog & Hnd & Hidx).
  destruct (run_tasks_mono _ _ _ _ _ _ Hrun) as (_ & Hin & Hdom).
  rewrite Hlog. apply Permutation_app_head.
  assert (Hperm : idx ≡ₚ seq 0 (length calls)).
  { apply NoDup_Permutation; [done | apply NoDup_seq|].
    intros i. rewrite Hidx, elem_of_seq, lookup_empty.
    rewrite <- (Forall2_length _ _ _ tasks_send). split.
    - intros [_ Hi]. split; [lia|]. simpl.
      destruct (Hdom i Hi) as [[r Hr] | Hlt]; [|done].
      by rewrite lookup_empty in Hr.
    - intros [_ Hlt]. split; [done|]. apply Hin; [|done].
      apply elem_of_app. right. apply elem_of_seq. lia. }
  rewrite Hperm. by rewrite all_calls.
Qed.

End Calls.

(** A request through an open session adds exactly its own call to the
    log, whatever the reply. *)
Lemma exchange_sends v url payload a ss :
  _session (host a) = Some ss →
  closed ss = false →
  is_Some (throttler (host a)) →
  sends (λ s, same_setup (host a) (host s))
    (exchange transport v url payload) (wire ss v url payload).
Proof.
  intros Hss Hopen [th Hth] s Hsame.
  assert (Hss' : _session (host s) = Some ss).
  { destruct Hsame as (-> & _). done. }
  assert (Hth' : throttler (host s) = Some th).
  { destruct Hsame as (_ & -> & _). done. }
  rewrite (exchange_unfold _ _ _ _ s ss Hss'), Hth', Hopen. simpl.
  destruct (transport (wire ss v url payload)) as [r|name]; simpl; [|done].
  destruct (status r =? 200); simpl; [|done].
  pose proof (check_call_limit_steady r a (logged (wire ss v url payload) s)
                Hsame) as [_ Hset].
  pose proof (check_call_limit_frame r (logged (wire ss v url payload) s))
    as [Hw _].
  unfold logged in *. simpl in *.
  destruct (check_call_limit r _) as [[[]|e] s2]; simpl in *.
  - unfold json. destruct (body r); simpl; by rewrite Hw.
  - by rewrite Hw.
Qed.

Lemma batch_log {D} (body : D → M pyval)
    (request : D → verb * target * option pyval) order descs s ss rs s' :
  (∀ d, body d = exchange transport (request d).1.1 (request d).1.2 (request d).2) →
  fst (session s) = Return ss →
  closed ss = false →
  is_Some (throttler (host s)) →
  batch body order descs s = (Return rs, s') →
  log (world s') ≡ₚ
    (log (world s)
       ++ ((λ d, wire ss (request d).1.1 (request d).1.2 (request d).2) <$> descs))%list.
Proof.
  intros Hbody Hsess%session_dispatch Hopen Hth.
  destruct (session_returns _ _ _ Hsess) as (Hss & _ & Hth1).
  rewrite <- Hth1 in Hth.
  rewrite batch_unfold, Hsess.
  destruct (spawn_all _ descs (dispatch s)) as [[ts|e] s2] eqn:Hsp;
    [|discriminate].
  apply (spawn_all_returns body) in Hsp as [-> ->].
  destruct (gather order (body <$> descs) (dispatch s)) as [[rs'|e] s3] eqn:Hg;
    simpl; [|discriminate].
  intros [= <- <-]. rewrite close_session_world.
  rewrite <- (dispatch_world s).
  eapply (gather_log (λ s0, same_setup (host (dispatch s)) (host s0)));
    [| apply same_setup_refl | exact Hg].
  apply Forall2_fmap, Forall_Forall2_diag, Forall_forall.
  intros d _. rewrite Hbody. by apply exchange_sends.
Qed.

(** X15. A batch that returns has made exactly one transport call per
    request - none repeated, none left out - each through the session
    of the batch, to the address of its descriptor (and, for
    [process_posts], with the payload paired with that address); only
    the order of the calls depends on the order of completion. *)
Theorem batch_sends_one_call_each order s ss :
  fst (session s) = Return ss →
  closed ss = false →
  is_Some (throttler (host s)) →
  (∀ urls rs s',
     process_gets transport order urls s = (Return rs, s') →
     log (world s') ≡ₚ
       (log (world s) ++ ((λ url, wire ss GET (TStr url) None) <$> urls))%list) ∧
  (∀ urls payloads rs s',
     process_posts transport order urls payloads s = (Return rs, s') →
     log (world s') ≡ₚ
       (log (world s)
          ++ ((λ d, wire ss POST d.1 (Some d.2))
                <$> zip (replicate_urls urls payloads) payloads))%list).
Proof.
  intros Hsess Hopen Hth. split.
  - intros urls rs s' Hrun. rewrite process_gets_batch in Hrun.
    exact (batch_log (async_get_body transport) (λ url, (GET, TStr url, None))
             _ _ _ _ _ _ (λ d, eq_refl) Hsess Hopen Hth Hrun).
  - intros urls payloads rs s' Hrun. rewrite process_posts_batch in Hrun.
    exact (batch_log (λ d, async_post_body transport d.1 d.2)
             (λ d, (POST, d.1, Some d.2))
             _ _ _ _ _ _ (λ d, eq_refl) Hsess Hopen Hth Hrun).
Qed.

(** ** The bridge, continued *)

(** X16. When the wrapped run returns a value, [pipeline] returns that
    value and prints nothing; what it leaves differs from the state the
    run ended in only by the closed loop and the discarded session: the
    transport log, the quota counters, the rate limiter, [headers] and
    the connector (still bound to the loop that is now closed) are
    those of the run. *)
Theorem pipeline_returns_result method args kwargs unpack s v s1 :
  wrapped_run method args kwargs unpack s = (Return v, s1) →
  ∀ s', s' = snd (pipeline method args kwargs unpack s) →
  fst (pipeline method args kwargs unpack s) = Return v ∧
  reported (world s') = reported (world s1) ∧
  log (world s') = log (world s1) ∧
  remaining_calls (host s') = remaining_calls (host s1) ∧
  call_counts (host s') = call_counts (host s1) ∧
  call_count_limit (host s') = call_count_limit (host s1) ∧
  throttler (host s') = throttler (host s1) ∧
  headers (host s') = headers (host s1) ∧
  conn (host s') = conn (host s1).
Proof.
  intros Hrun s' ->. rewrite pipeline_unfold. simpl. rewrite Hrun. simpl.
  unfold teardown, reset, loop_close, bind, get_self, modify_self,
    modify_world, ret. simpl.
  destruct (_session (host s1)); simpl; repeat split; done.
Qed.

End Coverage.

(** * Further runs on concrete inputs *)

Lemma get_failure_leaves_host_witness :
  quota_allows (host (sys_of ready_host)) ∧
  get always_404 "/a" ∅ (sys_of ready_host)
    = (Raise (SystemExit 404),
       logged (sync_wire GET "/a" ∅ None) (sys_of ready_host)) ∧
  get refuses "/a" ∅ (sys_of ready_host)
    = (Raise (TransportError "ConnectionError"),
       logged (sync_wire GET "/a" ∅ None) (sys_of ready_host)).
Proof.
  assert (Hq : quota_allows (host (sys_of ready_host))) by (left; reflexivity).
  split; [exact Hq|]. split.
  - exact (proj1 (get_failure_leaves_host always_404 "/a" ∅
                    (sys_of ready_host) Hq) _ eq_refl eq_refl).
  - exact (proj1 (proj2 (get_failure_leaves_host refuses "/a" ∅
                           (sys_of ready_host) Hq)) _ eq_refl).
Defined.

Lemma post_error_status_witness :
  serializable (PDict [("n", PList [PInt 1; PNone])]) = true ∧
  fst (post always_404 "/a" (PDict [("n", PList [PInt 1; PNone])])
         (sys_of ready_host)) = Raise (SystemExit 404) ∧
  fst (post garbled_500 "/a" PNone (sys_of ready_host)) = Raise JSONDecodeError.
Proof.
  split; [reflexivity|]. split.
  - rewrite (post_error_status always_404 "/a"
               (PDict [("n", PList [PInt 1; PNone])]) (sys_of ready_host) ∅
               _ (or_introl eq_refl) eq_refl eq_refl eq_refl eq_refl).
    reflexivity.
  - rewrite (post_error_status garbled_500 "/a" PNone (sys_of ready_host) ∅
               _ (or_introl eq_refl) eq_refl eq_refl eq_refl eq_refl).
    reflexivity.
Defined.

Lemma post_needs_headers_witness :
  headers (host (sys_of headerless_host)) = None ∧
  post always_ok "/a" PNone (sys_of headerless_host)
    = (Raise (AttributeError "headers"), sys_of headerless_host) ∧
  post always_ok "/a" (PList [PSet [PInt 1]]) (sys_of headerless_host)
    = (Raise (TypeError "Object of type set is not JSON serializable"),
       sys_of headerless_host) ∧
  length (log (world (snd (get always_ok "/a" ∅ (sys_of headerless_host)))))
    = 1%nat.
Proof.
  destruct (post_needs_headers always_ok (sys_of headerless_host)
              (or_introl eq_refl) eq_refl) as (Hpost & Hset & Hget).
  split; [reflexivity|]. split; [by apply Hpost|]. split; [by apply Hset|].
  rewrite Hget. reflexivity.
Defined.

Lemma unconfigured_host_needs_counters_witness :
  call_counts (host (sys_of uncounted_host)) = None ∧
  get always_ok "/a" ∅ (sys_of uncounted_host)
    = (Raise (AttributeError "call_counts"),
       logged (sync_wire GET "/a" ∅ None) (sys_of uncounted_host)).
Proof.
  split; [reflexivity|].
  exact (proj2 (unconfigured_host_needs_counters always_ok
                  (sys_of uncounted_host) eq_refl (or_introl eq_refl) eq_refl)
           "/a" ∅ (ok_response (PDict [("ok", PInt 1)]))
           (or_introl eq_refl) eq_refl eq_refl).
Defined.

Lemma observed_quota_governs_next_call_witness :
  get none_left "/b" ∅ (snd (get none_left "/a" ∅ (sys_of remaining_key_host)))
    = (Raise no_calls_left,
       snd (get none_left "/a" ∅ (sys_of remaining_key_host))) ∧
  quota_allows
    (host (snd (get always_ok "/a" ∅ (sys_of remaining_key_host)))).
Proof.
  split.
  - apply (proj1 (proj2 (observed_quota_governs_next_call none_left "/a" ∅
                           (sys_of remaining_key_host) "X-RateLimit-Remaining"
                           none_left_response (or_introl eq_refl)
                           eq_refl eq_refl eq_refl _ eq_refl)) 0);
      [reflexivity | lia].
  - apply (proj1 (proj2 (proj2 (observed_quota_governs_next_call always_ok
                           "/a" ∅ (sys_of remaining_key_host)
                           "X-RateLimit-Remaining"
                           (ok_response (PDict [("ok", PInt 1)]))
                           (or_introl eq_refl) eq_refl eq_refl eq_refl
                           _ eq_refl)))).
    reflexivity.
Defined.


Lemma reset_renews_session_witness :
  closed <$> _session (host (sys_of stale_host)) = Some true ∧
  fst (session (snd (reset (sys_of stale_host)))) = Return fresh_session.
Proof.
  split; [reflexivity|].
  rewrite (proj2 (proj2 (proj2 (reset_renews_session (sys_of stale_host))))
             ∅ eq_refl).
  reflexivity.
Defined.

Lemma failed_response_skips_quota_update_witness :
  status unavailable_response ≠ 200 ∧
  async_get_body b_unavailable "/B" (sys_of open_host)
    = (Return (error_payload "Service Unavailable"),
       logged (wire fresh_session GET (TStr "/B") None) (sys_of open_host)).
Proof.
  assert (Hst : status unavailable_response ≠ 200) by discriminate.
  split; [exact Hst|].
  exact (proj1 (failed_response_skips_quota_update b_unavailable
                  (sys_of open_host) fresh_session unavailable_response
                  eq_refl eq_refl (ex_intro _ (5, 60) eq_refl) Hst)
           "/B" eq_refl).
Defined.

Lemma empty_batch_witness :
  remaining_calls exhausted_host = Some (SInt 0) ∧
  fst (process_gets always_ok [] [] (sys_of exhausted_host)) = Return [] ∧
  fst (process_posts always_ok [] (UList []) [PInt 1; PInt 2]
         (sys_of exhausted_host)) = Return [].
Proof.
  destruct (empty_batch always_ok [] (sys_of exhausted_host) fresh_session
              eq_refl) as (Hgets & _ & Hposts & _).
  split; [reflexivity|]. split.
  - by rewrite Hgets.
  - by rewrite Hposts.
Defined.

Lemma exhausted_quota_fails_batch_witness :
  process_gets always_ok [] ["/A"; "/B"] (sys_of exhausted_host)
    = (Raise no_calls_left, close_session (dispatch (sys_of exhausted_host))) ∧
  log (world (close_session (dispatch (sys_of exhausted_host)))) = [].
Proof.
  destruct (exhausted_quota_fails_batch always_ok [] (sys_of exhausted_host)
              fresh_session 0 eq_refl eq_refl) as (Hgets & _ & Hlog); [lia|].
  split; [|exact Hlog]. apply Hgets. discriminate.
Defined.

Lemma batch_needs_rate_limit_witness :
  throttler unthrottled_host = None ∧
  fst (process_gets always_ok [] ["/A"] (sys_of unthrottled_host))
    = Raise (AttributeError "throttler").
Proof.
  split; [reflexivity|].
  destruct (batch_needs_rate_limit always_ok [] (sys_of unthrottled_host)
              fresh_session eq_refl (or_introl eq_refl) eq_refl)
    as (Hgets & _).
  rewrite (Hgets ["/A"]); [reflexivity | discriminate].
Defined.

Lemma closed_session_fails_next_batch_witness :
  (∃ ss, _session (host (snd (process_gets always_ok [] ["/A"]
                                (sys_of ready_host)))) = Some ss ∧
         closed ss = true) ∧
  process_gets always_ok [] ["/A"] (sys_of stale_host)
    = (Raise (RuntimeError "Session is closed"), sys_of stale_host).
Proof.
  split.
  - eapply (proj1 (closed_session_fails_next_batch always_ok []
                     (sys_of ready_host)) ["/A"]).
    vm_compute. reflexivity.
  - apply (proj1 (proj2 (proj2 (closed_session_fails_next_batch always_ok []
                                  (sys_of stale_host)))
                    {| sess_headers := ∅; closed := true |}
                    eq_refl eq_refl (or_introl eq_refl)
                    (ex_intro _ (5, 60) eq_refl))).
    discriminate.
Defined.

Lemma process_posts_truncates_witness :
  ∃ rs s',
    process_posts always_ok [] (UList ["/a"; "/b"; "/c"]) [PInt 1; PInt 2]
      (sys_of ready_host) = (Return rs, s') ∧
    length rs = 2%nat.
Proof.
  eexists _, _. split; [vm_compute; reflexivity|].
  assert (Hlen : length ["/a"; "/b"; "/c"] ≠ 1%nat) by (simpl; lia).
  exact (process_posts_truncates always_ok [] ["/a"; "/b"; "/c"]
           [PInt 1; PInt 2] (sys_of ready_host) _ _ Hlen eq_refl).
Defined.

Lemma batch_sends_one_call_each_witness :
  ∃ rs s',
    process_posts always_ok [1]%nat (UStr "/x") [PInt 1; PInt 2]
      (sys_of ready_host) = (Return rs, s') ∧
    log (world s') ≡ₚ
      [wire fresh_session POST (TStr "/x") (Some (PInt 1));
       wire fresh_session POST (TStr "/x") (Some (PInt 2))].
Proof.
  eexists _, _. split; [vm_compute; reflexivity|].
  exact (proj2 (batch_sends_one_call_each always_ok [1]%nat (sys_of ready_host)
                  fresh_session eq_refl eq_refl (ex_intro _ (5, 60) eq_refl))
           (UStr "/x") [PInt 1; PInt 2] _ _ eq_refl).
Defined.

Lemma pipeline_returns_result_witness :
  fst (pipeline echo (Some [PInt 1]) None true (sys_of ready_host))
    = Return (PList [PList [PInt 1]; PDict []]) ∧
  reported (world (snd (pipeline echo (Some [PInt 1]) None true
                          (sys_of ready_host)))) = [].
Proof.
  destruct (pipeline_returns_result echo (Some [PInt 1]) None true
              (sys_of ready_host) _ _ eq_refl _ eq_refl) as (Hres & Hrep & _).
  split; [exact Hres | exact Hrep].
Defined.
